(** * analyst-scenario.js: scenario modification builders

    A shallow embedding of [src/index.js].  The library consists of four
    mutable builder classes ([TripPattern], [RemoveTrip],
    [ConvertToFrequency], [AdjustHeadway]) and the [TimeWindow] class that
    describes one service period of a trip pattern.  Every builder has a
    [make] method that emits a JSON document.

    Modelling conventions.
    - A JavaScript object is a record; a method is a computation in a small
      state-and-exception monad whose state is the receiver ([this]).
    - JavaScript numbers are exact rationals ([Q]); rounding, overflow and
      non-finite arguments are outside the model.  Two divisions have a
      divisor that the caller controls.  The division by the speed in the hop
      times yields a [number], which has the non-finite values of IEEE
      arithmetic.  The division by [segLen] in the stop interpolation is
      executed only inside the [while] loop, which a run that returns enters
      only when adding [segLen] has lifted [accumulator] above [nextStop],
      that is with [segLen] positive.
    - [null] is [None] in a field of option type; an omitted argument
      ([undefined]) is [None] in an argument of option type.
    - The overloaded accessors ([if (x !== undefined) {set; return this}
      return this._x]) are one definition taking an optional argument; the
      fall-through branch, which is what a call without argument executes, is
      also available on its own under the name [get_x].
    - Diagnostics ([dbg], [console.log]) are not modelled. *)

From Stdlib Require Import QArith Qabs Lqa.
From stdpp Require Import base option list strings.

(** ** Values thrown by the code *)

Inductive js_error : Type :=
  | TypeError (msg : string)     (* raised by the runtime, e.g. a property of undefined *)
  | RangeError (msg : string)    (* the built-in RangeError class *)
  | ThrownString (msg : string). (* [throw "..."]: the thrown value is a string *)

(** ** Outcome of running a method

    [Timeout] is the outcome of a run whose [while] loop used up the
    iteration budget it was given. *)

Inductive outcome (A : Type) : Type :=
  | Ret (a : A)
  | Throw (e : js_error)
  | Timeout.
Arguments Ret {A} a.
Arguments Throw {A} e.
Arguments Timeout {A}.

(** ** The method monad: state [S] is the receiver *)

Definition M (S A : Type) : Type := S → outcome A * S.

#[global] Instance M_ret {S} : MRet (M S) := λ A a s, (Ret a, s).
#[global] Instance M_bind {S} : MBind (M S) := λ A B f m s,
  match m s with
  | (Ret a, s') => f a s'
  | (Throw e, s') => (Throw e, s')
  | (Timeout, s') => (Timeout, s')
  end.
#[global] Instance M_fmap {S} : FMap (M S) := λ A B f m s,
  match m s with
  | (Ret a, s') => (Ret (f a), s')
  | (Throw e, s') => (Throw e, s')
  | (Timeout, s') => (Timeout, s')
  end.

Definition gets {S A} (f : S → A) : M S A := λ s, (Ret (f s), s).
Definition modify {S} (f : S → S) : M S unit := λ s, (Ret tt, f s).
Definition throw {S A} (e : js_error) : M S A := λ s, (Throw e, s).
Definition timeout {S A} : M S A := λ s, (Timeout, s).

(** Result of a fluent method: the receiver itself, or a value. *)
Inductive fluent (A : Type) : Type :=
  | This
  | Got (a : A).
Arguments This {A}.
Arguments Got {A} a.

(** [for (x of xs) acc = body(x, acc)] *)
Fixpoint for_each {S A L} (body : A → L → M S L) (xs : list A) (l : L) : M S L :=
  match xs with
  | [] => mret l
  | x :: xs' => l' ← body x l; for_each body xs' l'
  end.

(** ** Numbers that may be non-finite *)

Inductive number : Type :=
  | Fin (q : Q)
  | PosInf
  | NegInf
  | NaN.

(** [a / b] on finite operands. *)
Definition js_div (a b : Q) : number :=
  if Qeq_bool b 0 then
    match (a ?= 0)%Q with
    | Gt => PosInf
    | Lt => NegInf
    | Eq => NaN
    end
  else Fin (a / b).

(** [x * k] for a finite [k]. *)
Definition js_mul (x : number) (k : Q) : number :=
  match x with
  | Fin q => Fin (q * k)
  | PosInf => match (k ?= 0)%Q with Gt => PosInf | Lt => NegInf | Eq => NaN end
  | NegInf => match (k ?= 0)%Q with Gt => NegInf | Lt => PosInf | Eq => NaN end
  | NaN => NaN
  end.

(** Numeric coercion of a field that may hold [null]: [null / 1000] is [0]. *)
Definition to_number (v : option Q) : Q := default 0%Q v.

(** [a < b] and [a > b] on finite numbers. *)
Definition js_lt (a b : Q) : bool := negb (Qle_bool b a).
Definition js_gt (a b : Q) : bool := js_lt b a.

(** ** TimeWindow: what a transit line does during one time window *)

Module TimeWindow.

Record t : Type := mk {
  _mon : bool; _tue : bool; _wed : bool; _thurs : bool;
  _fri : bool; _sat : bool; _sun : bool;
  _start : Q;
  _end : Q;
  _headway : Q;
  _dwell : Q;
  _speed : Q
}.

(** [constructor] *)
Definition new : t := {|
  _mon := true; _tue := true; _wed := true; _thurs := true;
  _fri := true; _sat := true; _sun := true;
  _start := 0;
  _end := 24 * 3600 - 1;
  _headway := 10 * 60;
  _dwell := 0;
  _speed := 15
|}.

Definition set_mon (v : bool) (w : t) : t :=
  mk v (_tue w) (_wed w) (_thurs w) (_fri w) (_sat w) (_sun w)
     (_start w) (_end w) (_headway w) (_dwell w) (_speed w).
Definition set_tue (v : bool) (w : t) : t :=
  mk (_mon w) v (_wed w) (_thurs w) (_fri w) (_sat w) (_sun w)
     (_start w) (_end w) (_headway w) (_dwell w) (_speed w).
Definition set_wed (v : bool) (w : t) : t :=
  mk (_mon w) (_tue w) v (_thurs w) (_fri w) (_sat w) (_sun w)
     (_start w) (_end w) (_headway w) (_dwell w) (_speed w).
Definition set_thurs (v : bool) (w : t) : t :=
  mk (_mon w) (_tue w) (_wed w) v (_fri w) (_sat w) (_sun w)
     (_start w) (_end w) (_headway w) (_dwell w) (_speed w).
Definition set_fri (v : bool) (w : t) : t :=
  mk (_mon w) (_tue w) (_wed w) (_thurs w) v (_sat w) (_sun w)
     (_start w) (_end w) (_headway w) (_dwell w) (_speed w).
Definition set_sat (v : bool) (w : t) : t :=
  mk (_mon w) (_tue w) (_wed w) (_thurs w) (_fri w) v (_sun w)
     (_start w) (_end w) (_headway w) (_dwell w) (_speed w).
Definition set_sun (v : bool) (w : t) : t :=
  mk (_mon w) (_tue w) (_wed w) (_thurs w) (_fri w) (_sat w) v
     (_start w) (_end w) (_headway w) (_dwell w) (_speed w).
Definition set_start (v : Q) (w : t) : t :=
  mk (_mon w) (_tue w) (_wed w) (_thurs w) (_fri w) (_sat w) (_sun w)
     v (_end w) (_headway w) (_dwell w) (_speed w).
Definition set_end (v : Q) (w : t) : t :=
  mk (_mon w) (_tue w) (_wed w) (_thurs w) (_fri w) (_sat w) (_sun w)
     (_start w) v (_headway w) (_dwell w) (_speed w).
Definition set_headway (v : Q) (w : t) : t :=
  mk (_mon w) (_tue w) (_wed w) (_thurs w) (_fri w) (_sat w) (_sun w)
     (_start w) (_end w) v (_dwell w) (_speed w).
Definition set_dwell (v : Q) (w : t) : t :=
  mk (_mon w) (_tue w) (_wed w) (_thurs w) (_fri w) (_sat w) (_sun w)
     (_start w) (_end w) (_headway w) v (_speed w).
Definition set_speed (v : Q) (w : t) : t :=
  mk (_mon w) (_tue w) (_wed w) (_thurs w) (_fri w) (_sat w) (_sun w)
     (_start w) (_end w) (_headway w) (_dwell w) v.

(** The shape shared by the accessors that do not validate:
    [if (v !== undefined) { this._x = v; return this }  return this._x]. *)
Definition accessor {A} (get : t → A) (set : A → t → t) (v : option A)
  : M t (fluent A) :=
  match v with
  | Some v => modify (set v);; mret This
  | None => Got <$> gets get
  end.

Definition get_speed : M t Q := gets _speed.
Definition speed : option Q → M t (fluent Q) := accessor _speed set_speed.

Definition get_headway : M t Q := gets _headway.
(** The [dbg] warning below 120 seconds is a diagnostic only. *)
Definition headway : option Q → M t (fluent Q) := accessor _headway set_headway.

Definition get_dwell : M t Q := gets _dwell.
Definition dwell : option Q → M t (fluent Q) := accessor _dwell set_dwell.

Definition startTime_message : string :=
  "Start time must be between zero and 24 * 3600. It is expressed in seconds since GTFS midnight.".
Definition endTime_message : string :=
  "Start time must be between zero and 48 * 3600. It is expressed in seconds since GTFS midnight.".

Definition get_startTime : M t Q := gets _start.
Definition startTime (startTime : option Q) : M t (fluent Q) :=
  match startTime with
  | Some startTime =>
      if js_lt startTime 0 || js_gt startTime (24 * 3600)
      then throw (ThrownString startTime_message)
      else modify (set_start startTime);; mret This
  | None => Got <$> get_startTime
  end.

Definition get_endTime : M t Q := gets _end.
Definition endTime (endTime : option Q) : M t (fluent Q) :=
  match endTime with
  | Some endTime =>
      if js_lt endTime 0 || js_gt endTime (48 * 3600)
      then throw (ThrownString endTime_message)
      else modify (set_end endTime);; mret This
  | None => Got <$> get_endTime
  end.

Definition get_monday : M t bool := gets _mon.
Definition monday : option bool → M t (fluent bool) := accessor _mon set_mon.
Definition get_tuesday : M t bool := gets _tue.
Definition tuesday : option bool → M t (fluent bool) := accessor _tue set_tue.
Definition get_wednesday : M t bool := gets _wed.
Definition wednesday : option bool → M t (fluent bool) := accessor _wed set_wed.
Definition get_thursday : M t bool := gets _thurs.
Definition thursday : option bool → M t (fluent bool) := accessor _thurs set_thurs.
Definition get_friday : M t bool := gets _fri.
Definition friday : option bool → M t (fluent bool) := accessor _fri set_fri.
Definition get_saturday : M t bool := gets _sat.
Definition saturday : option bool → M t (fluent bool) := accessor _sat set_sat.
Definition get_sunday : M t bool := gets _sun.
Definition sunday : option bool → M t (fluent bool) := accessor _sun set_sun.

Definition weekday (weekday : option bool) : M t (fluent bool) :=
  match weekday with
  | Some _ =>
      monday weekday;; tuesday weekday;; wednesday weekday;;
      thursday weekday;; friday weekday;;
      mret This
  | None =>
      a ← get_monday; b ← get_tuesday; c ← get_wednesday;
      d ← get_thursday; e ← get_friday;
      mret (Got (a && b && c && d && e))
  end.

Definition weekend (weekend : option bool) : M t (fluent bool) :=
  match weekend with
  | Some _ => saturday weekend;; sunday weekend;; mret This
  | None => a ← get_saturday; b ← get_sunday; mret (Got (a && b))
  end.

End TimeWindow.

(** ** Documents emitted by [TripPattern.make] *)

(** A coordinate [[x, y]]: longitude and latitude in degrees. *)
Definition coord : Type := Q * Q.

Module Timetable.
Record t : Type := mk {
  startTime : Q;
  endTime : Q;
  headwaySecs : Q;
  frequency : bool;
  dwellTimes : list Q;
  hopTimes : list number;
  days : list bool
}.
End Timetable.

Module AddTripPattern.
Record t : Type := mk {
  type : string;
  name : string;
  stops : list bool;
  timetables : list Timetable.t;
  geometry : string
}.
End AddTripPattern.

(** ** TripPattern: a brand-new trip pattern *)

Module TripPattern.

Record t : Type := mk {
  _geometry : option (list coord);  (* GeoJSON LineString: its coordinates, or null *)
  _spacing : option Q;              (* stop spacing in meters, or null *)
  _windows : list TimeWindow.t;     (* the time windows, in the state they are in *)
  _name : string;
  _reversed : bool
}.

(** [constructor] *)
Definition new : t := {|
  _geometry := None;
  _spacing := None;
  _windows := [];
  _name := "New trip pattern";
  _reversed := false
|}.

Definition set_geometry (v : option (list coord)) (tp : t) : t :=
  mk v (_spacing tp) (_windows tp) (_name tp) (_reversed tp).
Definition set_spacing (v : option Q) (tp : t) : t :=
  mk (_geometry tp) v (_windows tp) (_name tp) (_reversed tp).
Definition set_windows (v : list TimeWindow.t) (tp : t) : t :=
  mk (_geometry tp) (_spacing tp) v (_name tp) (_reversed tp).
Definition set_name (v : string) (tp : t) : t :=
  mk (_geometry tp) (_spacing tp) (_windows tp) v (_reversed tp).
Definition set_reversed (v : bool) (tp : t) : t :=
  mk (_geometry tp) (_spacing tp) (_windows tp) (_name tp) v.

(** [reverse]: keep the stops where they are, run the other way. *)
Definition reverse : M t (fluent ()) :=
  modify (λ this, set_reversed (negb (_reversed this)) this);;
  mret This.

(** [name]: the fall-through branch returns the parameter [name], which
    is [undefined] ([None]) there. *)
Definition name (name : option string) : M t (fluent (option string)) :=
  match name with
  | Some n => modify (set_name n);; mret This
  | None => mret (Got name)
  end.

Definition geometry (geometry : option (option (list coord)))
  : M t (fluent (option (list coord))) :=
  match geometry with
  | Some g => modify (set_geometry g);; mret This
  | None => Got <$> gets _geometry
  end.

Definition spacing (spacing : option (option Q)) : M t (fluent (option Q)) :=
  match spacing with
  | Some s => modify (set_spacing s);; mret This
  | None => Got <$> gets _spacing
  end.

Definition addTimeWindow (timeWindow : TimeWindow.t) : M t (fluent ()) :=
  modify (λ this, set_windows (_windows this ++ [timeWindow]) this);;
  mret This.

(** The variables of [make] that the two loops update. *)
Record locals : Type := mkLocals {
  accumulator : Q;
  nextStop : Q;
  stopIndices : list bool;
  nStops : nat;
  hops : list (option Q);
  newGeometry : list (option coord)   (* [newGeometry.coordinates] *)
}.

Section make.

(** [turf-distance] of two points, in kilometers. *)
Variable distance : coord → coord → Q.
(** [polyline.encode] of a sequence of [[lat, lon]] pairs. *)
Variable polyline_encode : list coord → string.

(** [this._geometry.coordinates] *)
Definition coordinates : M t (list coord) :=
  g ← gets _geometry;
  match g with
  | Some cs => mret cs
  | None => throw (TypeError "Cannot read property 'coordinates' of null")
  end.

(** [this._geometry.coordinates[i]]: [undefined] out of range. *)
Definition coordinate (i : nat) : M t (option coord) :=
  cs ← coordinates; mret (cs !! i).

(** Reading a component of a coordinate that may be [undefined]. *)
Definition defined (c : option coord) : M t coord :=
  match c with
  | Some c => mret c
  | None => throw (TypeError "Cannot read property of undefined")
  end.

(** [this._spacing / 1000] *)
Definition spacing_km : M t Q :=
  s ← gets _spacing; mret (to_number s / 1000)%Q.

(** The [while (accumulator > nextStop)] loop of segment [i], run for
    at most [fuel] iterations. *)
Fixpoint insert_stops (fuel : nat) (i : nat) (segLen : Q) (l : locals)
  : M t locals :=
  if js_gt (accumulator l) (nextStop l) then
    match fuel with
    | O => timeout
    | S fuel =>
        let frac := ((segLen - (accumulator l - nextStop l)) / segLen)%Q in
        p1 ← coordinate (i - 1) ≫= defined;
        p2 ← coordinate i ≫= defined;
        let '(x1, y1) := p1 in
        let '(x2, y2) := p2 in
        let interpolatedCoord := (x1 + (x2 - x1) * frac, y1 + (y2 - y1) * frac)%Q in
        spacing ← gets _spacing;
        step ← spacing_km;
        insert_stops fuel i segLen {|
          accumulator := accumulator l;
          nextStop := nextStop l + step;
          stopIndices := stopIndices l ++ [true];
          nStops := S (nStops l);
          hops := hops l ++ [spacing];
          newGeometry := newGeometry l ++ [Some interpolatedCoord]
        |}
    end
  else mret l.

(** The body of [for (let i = 1; i < coordinates.length; i++)]. *)
Definition segment (fuel : nat) (i : nat) (l : locals) : M t locals :=
  p1 ← coordinate (i - 1) ≫= defined;
  p2 ← coordinate i ≫= defined;
  let segLen := distance p1 p2 in
  l ← insert_stops fuel i segLen {|
         accumulator := accumulator l + segLen;
         nextStop := nextStop l;
         stopIndices := stopIndices l;
         nStops := nStops l;
         hops := hops l;
         newGeometry := newGeometry l
       |};
  c ← coordinate i;
  n ← length <$> coordinates;
  mret {|
    accumulator := accumulator l;
    nextStop := nextStop l;
    stopIndices := stopIndices l ++ [bool_decide (i = n - 1)];
    nStops := nStops l;
    hops := hops l;
    newGeometry := newGeometry l ++ [c]
  |}.

(** Lines 66-117: figure out where the stops are. *)
Definition discretize (fuel : nat) : M t locals :=
  first ← spacing_km;
  c0 ← coordinate 0;
  n ← length <$> coordinates;
  l ← for_each (segment fuel) (seq 1 (n - 1)) {|
         accumulator := 0;
         nextStop := first;
         stopIndices := [true];
         nStops := 2;
         hops := [];
         newGeometry := [c0]
       |};
  step ← spacing_km;
  let last := ((accumulator l - (nextStop l - step)) * 1000)%Q in
  reversed ← gets _reversed;
  if reversed : bool then
    mret {|
      accumulator := accumulator l;
      nextStop := nextStop l;
      stopIndices := list.reverse (stopIndices l);
      nStops := nStops l;
      hops := list.reverse (hops l ++ [Some last]);
      newGeometry := list.reverse (newGeometry l)
    |}
  else
    mret {|
      accumulator := accumulator l;
      nextStop := nextStop l;
      stopIndices := stopIndices l;
      nStops := nStops l;
      hops := hops l ++ [Some last];
      newGeometry := newGeometry l
    |}.

(** A method call on [this._windows[i]]: the receiver is the [i]-th
    window, and what the call does to it stays in the array. *)
Definition on_period {A} (i : nat) (m : M TimeWindow.t A) : M t A := λ this,
  match _windows this !! i with
  | Some period =>
      let '(r, period) := m period in
      (r, set_windows (<[i := period]> (_windows this)) this)
  | None => (Throw (TypeError "Cannot read property of undefined"), this)
  end.

(** The body of [for (let i = 0; i < this._windows.length; i++)]. *)
Definition timetable (l : locals) (i : nat) (timetables : list Timetable.t)
  : M t (list Timetable.t) :=
  startTime ← on_period i TimeWindow.get_startTime;
  endTime ← on_period i TimeWindow.get_endTime;
  headwaySecs ← on_period i TimeWindow.get_headway;
  dwell ← on_period i TimeWindow.get_dwell;
  hopTimes ← mapM (λ v,
                speed ← on_period i TimeWindow.get_speed;
                mret (js_mul (js_div (to_number v / 1000)%Q speed) 3600%Q))
              (hops l);
  monday ← on_period i TimeWindow.get_monday;
  tuesday ← on_period i TimeWindow.get_tuesday;
  wednesday ← on_period i TimeWindow.get_wednesday;
  thursday ← on_period i TimeWindow.get_thursday;
  friday ← on_period i TimeWindow.get_friday;
  saturday ← on_period i TimeWindow.get_saturday;
  sunday ← on_period i TimeWindow.get_sunday;
  mret (timetables ++ [{|
    Timetable.startTime := startTime;
    Timetable.endTime := endTime;
    Timetable.headwaySecs := headwaySecs;
    Timetable.frequency := true;
    Timetable.dwellTimes := replicate (nStops l) dwell;
    Timetable.hopTimes := hopTimes;
    Timetable.days :=
      [monday; tuesday; wednesday; thursday; friday; saturday; sunday]
  |}]).

(** [c => [c[1], c[0]]] *)
Definition lat_lon (c : option coord) : M t coord :=
  '(x, y) ← defined c; mret (y, x).

(** [make]: turn this transit line into an add-trip-pattern document.
    [fuel] bounds the iterations of each [while] loop. *)
Definition make (fuel : nat) : M t AddTripPattern.t :=
  l ← discretize fuel;
  n ← gets (λ this, length (_windows this));
  timetables ← for_each (timetable l) (seq 0 n) [];
  name ← gets _name;
  latlon ← mapM lat_lon (newGeometry l);
  mret {|
    AddTripPattern.type := "add-trip-pattern";
    AddTripPattern.name := name;
    AddTripPattern.stops := stopIndices l;
    AddTripPattern.timetables := timetables;
    AddTripPattern.geometry := polyline_encode latlon
  |}.

End make.

End TripPattern.

(** ** RemoveTrip *)

Module RemoveTripDocument.
Record t : Type := mk {
  type : string;
  agencyId : option string;
  routeId : option (list string);
  tripId : option (list string);
  routeType : option (list Q)
}.
End RemoveTripDocument.

Module RemoveTrip.

Record t : Type := mk {
  _agencyId : option string;
  _routeId : option (list string);
  _tripId : option (list string);
  _routeType : option (list Q)
}.

(** [constructor] *)
Definition new : t := {|
  _agencyId := None;
  _routeId := None;
  _tripId := None;
  _routeType := None
|}.

Definition set_agencyId (v : option string) (r : t) : t :=
  mk v (_routeId r) (_tripId r) (_routeType r).
Definition set_routeId (v : option (list string)) (r : t) : t :=
  mk (_agencyId r) v (_tripId r) (_routeType r).
Definition set_tripId (v : option (list string)) (r : t) : t :=
  mk (_agencyId r) (_routeId r) v (_routeType r).
Definition set_routeType (v : option (list Q)) (r : t) : t :=
  mk (_agencyId r) (_routeId r) (_tripId r) v.

Definition agency (agency : option (option string)) : M t (fluent (option string)) :=
  match agency with
  | Some a => modify (set_agencyId a);; mret This
  | None => Got <$> gets _agencyId
  end.

Definition addRoute (route : string) : M t (fluent ()) :=
  routeId ← gets _routeId;
  match routeId with
  | None => modify (set_routeId (Some [route]))
  | Some routes => modify (set_routeId (Some (routes ++ [route])))
  end;;
  mret This.

Definition addTrip (trip : string) : M t (fluent ()) :=
  tripId ← gets _tripId;
  match tripId with
  | None => modify (set_tripId (Some [trip]))
  | Some trips => modify (set_tripId (Some (trips ++ [trip])))
  end;;
  mret This.

(** add a GTFS route type to remove *)
Definition addType (type : Q) : M t (fluent ()) :=
  routeType ← gets _routeType;
  match routeType with
  | None => modify (set_routeType (Some [type]))
  | Some types => modify (set_routeType (Some (types ++ [type])))
  end;;
  mret This.

Definition make : M t RemoveTripDocument.t :=
  gets (λ this, {|
    RemoveTripDocument.type := "remove-trip";
    RemoveTripDocument.agencyId := _agencyId this;
    RemoveTripDocument.routeId := _routeId this;
    RemoveTripDocument.tripId := _tripId this;
    RemoveTripDocument.routeType := _routeType this
  |}).

End RemoveTrip.

(** ** ConvertToFrequency *)

Module ConvertToFrequencyDocument.
Record t : Type := mk {
  type : string;
  windowStart : Q;
  windowEnd : Q;
  groupBy : string;
  routeId : list string
}.
End ConvertToFrequencyDocument.

Module ConvertToFrequency.

Record t : Type := mk {
  _routeId : list string;
  _windowStart : Q;
  _windowEnd : Q;
  _groupBy : string
}.

(** [constructor] *)
Definition new : t := {|
  _routeId := [];
  _windowStart := 0;
  _windowEnd := 24 * 3600;
  _groupBy := "ROUTE_DIRECTION"
|}.

Definition set_routeId (v : list string) (c : t) : t :=
  mk v (_windowStart c) (_windowEnd c) (_groupBy c).
Definition set_windowStart (v : Q) (c : t) : t :=
  mk (_routeId c) v (_windowEnd c) (_groupBy c).
Definition set_windowEnd (v : Q) (c : t) : t :=
  mk (_routeId c) (_windowStart c) v (_groupBy c).
Definition set_groupBy (v : string) (c : t) : t :=
  mk (_routeId c) (_windowStart c) (_windowEnd c) v.

Definition addRoute (route : string) : M t (fluent ()) :=
  modify (λ this, set_routeId (_routeId this ++ [route]) this);;
  mret This.

Definition windowStart (windowStart : option Q) : M t (fluent Q) :=
  match windowStart with
  | Some v => modify (set_windowStart v);; mret This
  | None => Got <$> gets _windowStart
  end.

Definition windowEnd (windowEnd : option Q) : M t (fluent Q) :=
  match windowEnd with
  | Some v => modify (set_windowEnd v);; mret This
  | None => Got <$> gets _windowEnd
  end.

Definition groupBy (groupBy : option string) : M t (fluent string) :=
  match groupBy with
  | Some v => modify (set_groupBy v);; mret This
  | None => Got <$> gets _groupBy
  end.

Definition make : M t ConvertToFrequencyDocument.t :=
  gets (λ this, {|
    ConvertToFrequencyDocument.type := "convert-to-frequency";
    ConvertToFrequencyDocument.windowStart := _windowStart this;
    ConvertToFrequencyDocument.windowEnd := _windowEnd this;
    ConvertToFrequencyDocument.groupBy := _groupBy this;
    ConvertToFrequencyDocument.routeId := _routeId this
  |}).

End ConvertToFrequency.

(** ** AdjustHeadway *)

Module AdjustHeadwayDocument.
Record t : Type := mk {
  type : string;
  agencyId : option string;
  routeId : option (list string);
  tripId : option (list string);
  routeType : option (list Q);
  headway : Q
}.
End AdjustHeadwayDocument.

Module AdjustHeadway.

Record t : Type := mk {
  _agencyId : option string;
  _routeId : option (list string);
  _tripId : option (list string);
  _routeType : option (list Q);
  _headway : Q
}.

(** [constructor] *)
Definition new : t := {|
  _agencyId := None;
  _routeId := None;
  _tripId := None;
  _routeType := None;
  _headway := 600
|}.

Definition set_agencyId (v : option string) (r : t) : t :=
  mk v (_routeId r) (_tripId r) (_routeType r) (_headway r).
Definition set_routeId (v : option (list string)) (r : t) : t :=
  mk (_agencyId r) v (_tripId r) (_routeType r) (_headway r).
Definition set_tripId (v : option (list string)) (r : t) : t :=
  mk (_agencyId r) (_routeId r) v (_routeType r) (_headway r).
Definition set_routeType (v : option (list Q)) (r : t) : t :=
  mk (_agencyId r) (_routeId r) (_tripId r) v (_headway r).
Definition set_headway (v : Q) (r : t) : t :=
  mk (_agencyId r) (_routeId r) (_tripId r) (_routeType r) v.

Definition agency (agency : option (option string)) : M t (fluent (option string)) :=
  match agency with
  | Some a => modify (set_agencyId a);; mret This
  | None => Got <$> gets _agencyId
  end.

Definition addRoute (route : string) : M t (fluent ()) :=
  routeId ← gets _routeId;
  match routeId with
  | None => modify (set_routeId (Some [route]))
  | Some routes => modify (set_routeId (Some (routes ++ [route])))
  end;;
  mret This.

Definition addTrip (trip : string) : M t (fluent ()) :=
  tripId ← gets _tripId;
  match tripId with
  | None => modify (set_tripId (Some [trip]))
  | Some trips => modify (set_tripId (Some (trips ++ [trip])))
  end;;
  mret This.

(** add a GTFS route type to match *)
Definition addType (type : Q) : M t (fluent ()) :=
  routeType ← gets _routeType;
  match routeType with
  | None => modify (set_routeType (Some [type]))
  | Some types => modify (set_routeType (Some (types ++ [type])))
  end;;
  mret This.

(** set headway in seconds *)
Definition headway (headway : option Q) : M t (fluent Q) :=
  match headway with
  | Some v => modify (set_headway v);; mret This
  | None => Got <$> gets _headway
  end.

Definition make : M t AdjustHeadwayDocument.t :=
  gets (λ this, {|
    AdjustHeadwayDocument.type := "adjust-headway";
    AdjustHeadwayDocument.agencyId := _agencyId this;
    AdjustHeadwayDocument.routeId := _routeId this;
    AdjustHeadwayDocument.tripId := _tripId this;
    AdjustHeadwayDocument.routeType := _routeType this;
    AdjustHeadwayDocument.headway := _headway this
  |}).

End AdjustHeadway.

(** ** Vocabulary of the statements *)

(** Number of [true] entries of a sequence of stop markers. *)
Definition count_true (bs : list bool) : nat :=
  length (filter (λ b, b = true) bs).

(** Sum of a sequence of numbers. *)
Definition Qsum (qs : list Q) : Q := foldr Qplus 0%Q qs.

(** Sum of the hop distances, in meters. *)
Definition hops_total (hops : list (option Q)) : Q := Qsum (to_number <$> hops).

(** Length of a line in kilometers: the sum of the distances between
    consecutive coordinates. *)
Fixpoint geometry_length (distance : coord → coord → Q) (cs : list coord) : Q :=
  match cs with
  | [] => 0
  | c1 :: rest =>
      match rest with
      | [] => 0
      | c2 :: _ => distance c1 c2 + geometry_length distance rest
      end
  end.

(** The degenerate inputs of [TripPattern.make]: a non-positive spacing, a
    geometry of fewer than two coordinates, or a time window with a
    non-positive speed. *)
Definition degenerate (tp : TripPattern.t) : Prop :=
  (to_number (TripPattern._spacing tp) <= 0)%Q
  ∨ (∃ cs, TripPattern._geometry tp = Some cs ∧ length cs < 2)
  ∨ (∃ w, w ∈ TripPattern._windows tp ∧ (TimeWindow._speed w <= 0)%Q).

(** A computation that leaves the receiver as it found it, whatever the
    outcome. *)
Definition readonly {S A} (m : M S A) : Prop := ∀ s, (m s).2 = s.

(** A computation whose result does not change when its loops are given
    more iterations. *)
Definition mono {S A} (m : nat → M S A) : Prop :=
  ∀ f f' s a s', f ≤ f' → m f s = (Ret a, s') → m f' s = (Ret a, s').

(** The timetable that [make] builds for a window in state [w]. *)
Definition timetable_of (l : TripPattern.locals) (w : TimeWindow.t) : Timetable.t := {|
  Timetable.startTime := TimeWindow._start w;
  Timetable.endTime := TimeWindow._end w;
  Timetable.headwaySecs := TimeWindow._headway w;
  Timetable.frequency := true;
  Timetable.dwellTimes := replicate (TripPattern.nStops l) (TimeWindow._dwell w);
  Timetable.hopTimes :=
    (λ v, js_mul (js_div (to_number v / 1000)%Q (TimeWindow._speed w)) 3600%Q)
      <$> TripPattern.hops l;
  Timetable.days :=
    [TimeWindow._mon w; TimeWindow._tue w; TimeWindow._wed w;
     TimeWindow._thurs w; TimeWindow._fri w; TimeWindow._sat w;
     TimeWindow._sun w]
|}.

Section invariants.
Import TripPattern.

(** What holds of the loop variables between two iterations.  [final]
    tells whether the last vertex of the line has been pushed. *)
Record inv (s : Q) (final : bool) (l : locals) : Prop := {
  inv_first : head (stopIndices l) = Some true;
  inv_last : final = true → last (stopIndices l) = Some true;
  inv_count :
    count_true (stopIndices l) = (if final then 2 else 1) + length (hops l);
  inv_nStops : nStops l = 2 + length (hops l);
  inv_hops : Forall (λ h, h = Some s) (hops l);
  inv_next : (hops_total (hops l) == (nextStop l - s / 1000) * 1000)%Q;
  inv_geometry : Forall is_Some (newGeometry l);
  inv_length : length (newGeometry l) = length (stopIndices l)
}.

(** What the discretization of a line of at least two vertices returns. *)
Record discretized (distance : coord → coord → Q) (this : t)
    (coords : list coord) (s : Q) (l : locals) : Prop := {
  d_first : head (stopIndices l) = Some true;
  d_last : last (stopIndices l) = Some true;
  d_count : count_true (stopIndices l) = S (length (hops l));
  d_nStops : nStops l = count_true (stopIndices l);
  d_hops : ∃ hs, Forall (λ h, h = Some s) hs
      ∧ hops l = (if _reversed this then list.reverse else id)
          (hs ++ [Some ((accumulator l - (nextStop l - s / 1000)) * 1000)%Q]);
  d_total : (hops_total (hops l) == geometry_length distance coords * 1000)%Q;
  d_geometry : Forall is_Some (newGeometry l);
  d_length : length (newGeometry l) = length (stopIndices l)
}.

End invariants.

(** ** Stand-ins for the two external functions, to run examples

    An equirectangular estimate of the distance (111 km per degree along
    both axes, taxicab norm), and an encoder that keeps only the number of
    coordinates. *)
Definition taxicab_km (a b : coord) : Q :=
  (111 * (Qabs (b.1 - a.1) + Qabs (b.2 - a.2)))%Q.

Definition encode_length (cs : list coord) : string :=
  String.concat EmptyString (replicate (length cs) "?"%string).

(** ** Builders used as examples *)

(** Two vertices a hundredth of a degree apart, a stop every 500 m, one
    time window with the default settings. *)
Definition example_line : TripPattern.t := {|
  TripPattern._geometry := Some [(0, 0); (0, 1 # 100)]%Q;
  TripPattern._spacing := Some 500%Q;
  TripPattern._windows := [TimeWindow.new];
  TripPattern._name := "Line 1";
  TripPattern._reversed := false
|}.

(** The same line with a geometry of a single vertex. *)
Definition single_point_line : TripPattern.t :=
  TripPattern.set_geometry (Some [(0, 0)]%Q) example_line.

(** The same line with a geometry without vertices. *)
Definition empty_line : TripPattern.t :=
  TripPattern.set_geometry (Some []) example_line.

(** The same line with a spacing of zero. *)
Definition zero_spacing_line : TripPattern.t :=
  TripPattern.set_spacing (Some 0%Q) example_line.

(** The same line with a vehicle that does not move. *)
Definition stalled_line : TripPattern.t :=
  TripPattern.set_windows [TimeWindow.set_speed 0 TimeWindow.new] example_line.

(** ** Vocabulary of the statements about the remaining methods *)

(** The start and end times a [TimeWindow] setter accepts. *)
Definition times_in_range (w : TimeWindow.t) : Prop :=
  (0 <= TimeWindow._start w ∧ TimeWindow._start w <= 86400)%Q
  ∧ (0 <= TimeWindow._end w ∧ TimeWindow._end w <= 172800)%Q.

(** A call of a [TimeWindow] method, with its argument if it has one. *)
Inductive window_call : Type :=
  | CallSpeed (v : option Q)
  | CallHeadway (v : option Q)
  | CallDwell (v : option Q)
  | CallStartTime (v : option Q)
  | CallEndTime (v : option Q)
  | CallMonday (v : option bool)
  | CallTuesday (v : option bool)
  | CallWednesday (v : option bool)
  | CallThursday (v : option bool)
  | CallFriday (v : option bool)
  | CallSaturday (v : option bool)
  | CallSunday (v : option bool)
  | CallWeekday (v : option bool)
  | CallWeekend (v : option bool).

(** The window after a call, whether the call returned or threw. *)
Definition after_call (w : TimeWindow.t) (c : window_call) : TimeWindow.t :=
  match c with
  | CallSpeed v => (TimeWindow.speed v w).2
  | CallHeadway v => (TimeWindow.headway v w).2
  | CallDwell v => (TimeWindow.dwell v w).2
  | CallStartTime v => (TimeWindow.startTime v w).2
  | CallEndTime v => (TimeWindow.endTime v w).2
  | CallMonday v => (TimeWindow.monday v w).2
  | CallTuesday v => (TimeWindow.tuesday v w).2
  | CallWednesday v => (TimeWindow.wednesday v w).2
  | CallThursday v => (TimeWindow.thursday v w).2
  | CallFriday v => (TimeWindow.friday v w).2
  | CallSaturday v => (TimeWindow.saturday v w).2
  | CallSunday v => (TimeWindow.sunday v w).2
  | CallWeekday v => (TimeWindow.weekday v w).2
  | CallWeekend v => (TimeWindow.weekend v w).2
  end.

(** A filter list after the values [added] have been appended to it one by
    one: [null] stays [null] as long as nothing is added. *)
Definition extended {A} (old : option (list A)) (added : list A) : option (list A) :=
  match added with
  | [] => old
  | _ => Some (default [] old ++ added)
  end.

(** A call of one of the three [add] methods of [RemoveTrip] and
    [AdjustHeadway]. *)
Inductive filter_call : Type :=
  | AddRoute (route : string)
  | AddTrip (trip : string)
  | AddType (type : Q).

Definition RemoveTrip_call (c : filter_call) : M RemoveTrip.t (fluent ()) :=
  match c with
  | AddRoute route => RemoveTrip.addRoute route
  | AddTrip trip => RemoveTrip.addTrip trip
  | AddType type => RemoveTrip.addType type
  end.

Definition AdjustHeadway_call (c : filter_call) : M AdjustHeadway.t (fluent ()) :=
  match c with
  | AddRoute route => AdjustHeadway.addRoute route
  | AddTrip trip => AdjustHeadway.addTrip trip
  | AddType type => AdjustHeadway.addType type
  end.

(** The routes, trips and types of a sequence of calls, in call order. *)
Definition routes_of (cs : list filter_call) : list string :=
  omap (λ c, match c with AddRoute route => Some route | _ => None end) cs.
Definition trips_of (cs : list filter_call) : list string :=
  omap (λ c, match c with AddTrip trip => Some trip | _ => None end) cs.
Definition types_of (cs : list filter_call) : list Q :=
  omap (λ c, match c with AddType type => Some type | _ => None end) cs.

(** The loop variables of the same line run in the other direction. *)
Definition mirror (l : TripPattern.locals) : TripPattern.locals := {|
  TripPattern.accumulator := TripPattern.accumulator l;
  TripPattern.nextStop := TripPattern.nextStop l;
  TripPattern.stopIndices := reverse (TripPattern.stopIndices l);
  TripPattern.nStops := TripPattern.nStops l;
  TripPattern.hops := reverse (TripPattern.hops l);
  TripPattern.newGeometry := reverse (TripPattern.newGeometry l)
|}.

(** Two timetables that differ at most in their hop times. *)
Definition same_service (tt tt' : Timetable.t) : Prop :=
  Timetable.startTime tt' = Timetable.startTime tt
  ∧ Timetable.endTime tt' = Timetable.endTime tt
  ∧ Timetable.headwaySecs tt' = Timetable.headwaySecs tt
  ∧ Timetable.frequency tt' = Timetable.frequency tt
  ∧ Timetable.dwellTimes tt' = Timetable.dwellTimes tt
  ∧ Timetable.days tt' = Timetable.days tt.

(** A point of the line through [coords]: a point of the straight segment,
    in coordinate space, between two consecutive coordinates. *)
Definition on_line (coords : list coord) (p : coord) : Prop :=
  ∃ i a b t,
    coords !! i = Some a ∧ coords !! S i = Some b
    ∧ (0 <= t ∧ t <= 1)%Q
    ∧ (p.1 == a.1 + (b.1 - a.1) * t)%Q
    ∧ (p.2 == a.2 + (b.2 - a.2) * t)%Q.

(** What holds of the loop variables before segment [j] is walked: the
    running length has not passed the next stop, every vertex pushed so far
    is a stop or one of the first [j] vertices of the line, the hops add up
    to the distance of the last stop inserted, and every vertex pushed so far
    is on the line. *)
Definition walked (coords : list coord) (s : Q) (j : nat)
    (l : TripPattern.locals) : Prop :=
  (TripPattern.accumulator l <= TripPattern.nextStop l)%Q
  ∧ length (TripPattern.stopIndices l) = j + length (TripPattern.hops l)
  ∧ (hops_total (TripPattern.hops l)
     == (TripPattern.nextStop l - s / 1000) * 1000)%Q
  ∧ Forall (λ c, ∃ p, c = Some p ∧ on_line coords p) (TripPattern.newGeometry l).


(** ** RemoveTrip with its arrays in a store

    [RemoveTrip.make] puts [this._routeId], [this._tripId] and
    [this._routeType] themselves in the document, and the [add] methods
    [push] onto them: the document and the builder share the arrays.  To say
    what that means the arrays live in a store here, and the fields and the
    document hold locations.  Arrays of strings and arrays of numbers are
    kept apart. *)

Module Shared.

Definition loc : Type := nat.

Record world (T : Type) : Type := mkWorld {
  strings : list (list string);   (* the arrays of route and trip ids *)
  numbers : list (list Q);        (* the arrays of route types *)
  this : T
}.
Arguments mkWorld {T} strings numbers this.
Arguments strings {T} w.
Arguments numbers {T} w.
Arguments this {T} w.

(** [[x]]: a new array. *)
Definition new_strings {T} (x : string) : M (world T) loc := λ w,
  (Ret (length (strings w)),
   mkWorld (strings w ++ [[x]]) (numbers w) (this w)).
Definition new_numbers {T} (x : Q) : M (world T) loc := λ w,
  (Ret (length (numbers w)),
   mkWorld (strings w) (numbers w ++ [[x]]) (this w)).

(** [a.push(x)] *)
Definition push_string {T} (a : loc) (x : string) : M (world T) () := λ w,
  match strings w !! a with
  | Some xs => (Ret (), mkWorld (<[a := xs ++ [x]]> (strings w)) (numbers w) (this w))
  | None => (Throw (TypeError "Cannot read property 'push' of undefined"), w)
  end.
Definition push_number {T} (a : loc) (x : Q) : M (world T) () := λ w,
  match numbers w !! a with
  | Some xs => (Ret (), mkWorld (strings w) (<[a := xs ++ [x]]> (numbers w)) (this w))
  | None => (Throw (TypeError "Cannot read property 'push' of undefined"), w)
  end.

(** A write to a field of [this]. *)
Definition assign {T} (f : T → T) : M (world T) () := λ w,
  (Ret (), mkWorld (strings w) (numbers w) (f (this w))).

End Shared.

Module SharedRemoveTrip.
Import Shared.

Record t : Type := mk {
  _agencyId : option string;
  _routeId : option loc;
  _tripId : option loc;
  _routeType : option loc
}.

(** The document: the same locations. *)
Record document : Type := mkDocument {
  type : string;
  agencyId : option string;
  routeId : option loc;
  tripId : option loc;
  routeType : option loc
}.

(** [constructor] *)
Definition new : t := {|
  _agencyId := None;
  _routeId := None;
  _tripId := None;
  _routeType := None
|}.

Definition set_routeId (v : option loc) (r : t) : t :=
  mk (_agencyId r) v (_tripId r) (_routeType r).
Definition set_tripId (v : option loc) (r : t) : t :=
  mk (_agencyId r) (_routeId r) v (_routeType r).
Definition set_routeType (v : option loc) (r : t) : t :=
  mk (_agencyId r) (_routeId r) (_tripId r) v.

Definition addRoute (route : string) : M (world t) (fluent ()) :=
  routeId ← gets (λ w, _routeId (this w));
  match routeId with
  | None => a ← new_strings route; assign (set_routeId (Some a))
  | Some a => push_string a route
  end;;
  mret This.

Definition addTrip (trip : string) : M (world t) (fluent ()) :=
  tripId ← gets (λ w, _tripId (this w));
  match tripId with
  | None => a ← new_strings trip; assign (set_tripId (Some a))
  | Some a => push_string a trip
  end;;
  mret This.

Definition addType (type : Q) : M (world t) (fluent ()) :=
  routeType ← gets (λ w, _routeType (this w));
  match routeType with
  | None => a ← new_numbers type; assign (set_routeType (Some a))
  | Some a => push_number a type
  end;;
  mret This.

Definition make : M (world t) document :=
  gets (λ w, {|
    type := "remove-trip";
    agencyId := _agencyId (this w);
    routeId := _routeId (this w);
    tripId := _tripId (this w);
    routeType := _routeType (this w)
  |}).

Definition call (c : filter_call) : M (world t) (fluent ()) :=
  match c with
  | AddRoute route => addRoute route
  | AddTrip trip => addTrip trip
  | AddType type => addType type
  end.

(** What a document says when it is read in a world. *)
Definition read (w : world t) (d : document) : RemoveTripDocument.t := {|
  RemoveTripDocument.type := type d;
  RemoveTripDocument.agencyId := agencyId d;
  RemoveTripDocument.routeId := a ← routeId d; strings w !! a;
  RemoveTripDocument.tripId := a ← tripId d; strings w !! a;
  RemoveTripDocument.routeType := a ← routeType d; numbers w !! a
|}.

(** The builder with its arrays read from the store. *)
Definition contents (w : world t) : RemoveTrip.t := {|
  RemoveTrip._agencyId := _agencyId (this w);
  RemoveTrip._routeId := a ← _routeId (this w); strings w !! a;
  RemoveTrip._tripId := a ← _tripId (this w); strings w !! a;
  RemoveTrip._routeType := a ← _routeType (this w); numbers w !! a
|}.

(** The worlds the methods produce: the fields point into the store, and
    the routes and the trips are two arrays. *)
Definition well_formed (w : world t) : Prop :=
  (∀ a, _routeId (this w) = Some a → is_Some (strings w !! a))
  ∧ (∀ a, _tripId (this w) = Some a → is_Some (strings w !! a))
  ∧ (∀ a, _routeType (this w) = Some a → is_Some (numbers w !! a))
  ∧ (∀ a b, _routeId (this w) = Some a → _tripId (this w) = Some b → a ≠ b).

(** The fields of a builder, once they hold an array, keep holding it. *)
Definition keeps_arrays (w w' : world t) : Prop :=
  (∀ a, _routeId (this w) = Some a → _routeId (this w') = Some a)
  ∧ (∀ a, _tripId (this w) = Some a → _tripId (this w') = Some a)
  ∧ (∀ a, _routeType (this w) = Some a → _routeType (this w') = Some a)
  ∧ _agencyId (this w') = _agencyId (this w).

End SharedRemoveTrip.

(** A new [RemoveTrip], and one on which [addRoute("10")] has been called. *)
Definition fresh_world : Shared.world SharedRemoveTrip.t :=
  Shared.mkWorld [] [] SharedRemoveTrip.new.
Definition one_route_world : Shared.world SharedRemoveTrip.t :=
  Shared.mkWorld [["10"%string]] []
    (SharedRemoveTrip.set_routeId (Some 0) SharedRemoveTrip.new).

(** * Properties *)

(** ** Running computations *)

Section monad_facts.
Context {S : Type}.

Lemma bind_run {A B} (m : M S A) (k : A → M S B) s a s' :
  m s = (Ret a, s') → (m ≫= k) s = k a s'.
Proof. intros H. unfold mbind, M_bind. by rewrite H. Qed.

Lemma bind_inv {A B} (m : M S A) (k : A → M S B) s b s'' :
  (m ≫= k) s = (Ret b, s'') →
  ∃ a s', m s = (Ret a, s') ∧ k a s' = (Ret b, s'').
Proof.
  unfold mbind, M_bind. destruct (m s) as [[a|e|] s']; try done.
  intros H. by exists a, s'.
Qed.

Lemma fmap_run {A B} (g : A → B) (m : M S A) s a s' :
  m s = (Ret a, s') → (g <$> m) s = (Ret (g a), s').
Proof. intros H. unfold fmap, M_fmap. by rewrite H. Qed.

Lemma readonly_ret {A} (a : A) : readonly (mret a : M S A).
Proof. done. Qed.

Lemma readonly_gets {A} (g : S → A) : readonly (gets g).
Proof. done. Qed.

Lemma readonly_throw {A} e : readonly (throw e : M S A).
Proof. done. Qed.

Lemma readonly_timeout {A} : readonly (timeout : M S A).
Proof. done. Qed.

Lemma readonly_bind {A B} (m : M S A) (k : A → M S B) :
  readonly m → (∀ a, readonly (k a)) → readonly (m ≫= k).
Proof.
  intros Hm Hk s. unfold mbind, M_bind.
  specialize (Hm s). destruct (m s) as [[a|e|] s']; simpl in *; subst; try done.
  apply Hk.
Qed.

Lemma readonly_fmap {A B} (g : A → B) (m : M S A) :
  readonly m → readonly (g <$> m).
Proof.
  intros Hm s. unfold fmap, M_fmap.
  specialize (Hm s). by destruct (m s) as [[a|e|] s'].
Qed.

Lemma readonly_for_each {A L} (body : A → L → M S L) xs :
  (∀ x l, readonly (body x l)) → ∀ l, readonly (for_each body xs l).
Proof.
  intros Hbody. induction xs as [|x xs IH]; intros l; simpl.
  - apply readonly_ret.
  - apply readonly_bind; auto.
Qed.

Lemma readonly_mapM {A B} (g : A → M S B) xs :
  (∀ x, readonly (g x)) → readonly (mapM g xs).
Proof.
  intros Hg. induction xs as [|x xs IH]; simpl.
  - apply readonly_ret.
  - apply readonly_bind; [done|]. intros y.
    apply readonly_bind; [done|]. intros ys. apply readonly_ret.
Qed.

Lemma mono_const {A} (m : M S A) : mono (λ _, m).
Proof. by intros f f' s a s' _ H. Qed.

Lemma mono_bind {A B} (m : nat → M S A) (k : nat → A → M S B) :
  mono m → (∀ a, mono (λ f, k f a)) → mono (λ f, m f ≫= k f).
Proof.
  intros Hm Hk f f' s b s'' Hle H.
  apply bind_inv in H as (a & s' & Ha & Hb).
  rewrite (bind_run _ _ _ _ _ (Hm _ _ _ _ _ Hle Ha)).
  by apply (Hk a f f').
Qed.

Lemma mono_for_each {A L} (body : nat → A → L → M S L) xs :
  (∀ x l, mono (λ f, body f x l)) →
  ∀ l, mono (λ f, for_each (body f) xs l).
Proof.
  intros Hbody. induction xs as [|x xs IH]; intros l; simpl.
  - apply mono_const.
  - apply (mono_bind (λ f, body f x l) (λ f l', for_each (body f) xs l')); auto.
Qed.

(** Two runs that both return agree, whatever fuel each was given. *)
Lemma mono_agree {A} (m : nat → M S A) f1 f2 s a1 a2 s1 s2 :
  mono m → m f1 s = (Ret a1, s1) → m f2 s = (Ret a2, s2) →
  a1 = a2 ∧ s1 = s2.
Proof.
  intros Hm H1 H2.
  apply (Hm f1 (f1 `max` f2)) in H1; [|lia].
  apply (Hm f2 (f1 `max` f2)) in H2; [|lia].
  rewrite H1 in H2. by simplify_eq.
Qed.

End monad_facts.

(** ** [TripPattern.make] only reads the builder *)

Section make_frame.
Import TripPattern.
Variable distance : coord → coord → Q.
Variable polyline_encode : list coord → string.

Lemma set_windows_id (this : t) : set_windows (_windows this) this = this.
Proof. by destruct this. Qed.

(** A call on a window that leaves the window alone leaves the builder
    alone: the array slot is overwritten with the value it held. *)
Lemma readonly_on_period {A} i (m : M TimeWindow.t A) :
  readonly m → readonly (on_period i m).
Proof.
  intros Hm this. unfold on_period.
  destruct (_windows this !! i) as [period|] eqn:Hi; [|done].
  specialize (Hm period). destruct (m period) as [r period']; simpl in *; subst.
  by rewrite list_insert_id, set_windows_id.
Qed.

Lemma readonly_coordinates : readonly coordinates.
Proof.
  apply readonly_bind; [apply readonly_gets|].
  intros [cs|]; [apply readonly_ret | apply readonly_throw].
Qed.

Lemma readonly_coordinate i : readonly (coordinate i).
Proof.
  apply readonly_bind; [apply readonly_coordinates | intros; apply readonly_ret].
Qed.

Lemma readonly_defined c : readonly (defined c).
Proof. destruct c; [apply readonly_ret | apply readonly_throw]. Qed.

Lemma readonly_spacing_km : readonly spacing_km.
Proof. apply readonly_bind; [apply readonly_gets | intros; apply readonly_ret]. Qed.

Create HintDb readonly.
#[local] Hint Resolve readonly_ret readonly_gets readonly_throw readonly_timeout
  readonly_coordinates readonly_coordinate readonly_defined readonly_spacing_km
  readonly_fmap : readonly.

(** One step of a read-only proof: split a bind, or open the case
    distinction the computation is about to make. *)
Ltac readonly_step :=
  match goal with
  | |- readonly (_ ≫= _) => apply readonly_bind; [|intros ?]
  | |- readonly (let '(_, _) := ?p in _) => destruct p
  | |- readonly (if ?b then _ else _) => destruct b
  | |- readonly (on_period _ _) => apply readonly_on_period
  | |- readonly (mapM _ _) => apply readonly_mapM; intros ?
  | |- readonly (for_each _ _ _) => apply readonly_for_each; intros ? ?
  | |- _ => solve [auto with readonly]
  end.

Lemma readonly_insert_stops fuel i segLen l :
  readonly (insert_stops fuel i segLen l).
Proof.
  revert l. induction fuel as [|fuel IH]; intros l; simpl.
  - destruct (js_gt _ _); auto with readonly.
  - destruct (js_gt _ _); [|auto with readonly].
    repeat readonly_step.
Qed.

Lemma readonly_segment fuel i l : readonly (segment distance fuel i l).
Proof.
  unfold segment. repeat readonly_step. apply readonly_insert_stops.
Qed.

Lemma readonly_discretize fuel : readonly (discretize distance fuel).
Proof.
  unfold discretize. repeat readonly_step. apply readonly_segment.
Qed.

Lemma readonly_timetable l i tts : readonly (timetable l i tts).
Proof.
  unfold timetable, TimeWindow.get_startTime, TimeWindow.get_endTime,
    TimeWindow.get_headway, TimeWindow.get_dwell, TimeWindow.get_speed,
    TimeWindow.get_monday, TimeWindow.get_tuesday, TimeWindow.get_wednesday,
    TimeWindow.get_thursday, TimeWindow.get_friday, TimeWindow.get_saturday,
    TimeWindow.get_sunday.
  repeat readonly_step.
Qed.

Lemma readonly_lat_lon c : readonly (lat_lon c).
Proof. unfold lat_lon. repeat readonly_step. Qed.

Lemma readonly_make fuel : readonly (make distance polyline_encode fuel).
Proof.
  unfold make. repeat readonly_step.
  - apply readonly_discretize.
  - apply readonly_timetable.
  - apply readonly_lat_lon.
Qed.

(** More fuel does not change what a run returns. *)
Lemma mono_insert_stops i segLen l : mono (λ fuel, insert_stops fuel i segLen l).
Proof.
  intros f. revert l. induction f as [|f IH]; intros l f' this l' this' Hle; simpl.
  - destruct (js_gt (accumulator l) (nextStop l)) eqn:Hgt; [done|].
    intros H. destruct f'; simpl; by rewrite Hgt.
  - destruct f' as [|f']; [lia|]. simpl.
    destruct (js_gt (accumulator l) (nextStop l)) eqn:Hgt; [|done].
    intros H.
    apply bind_inv in H as (p1 & s1 & H1 & H). rewrite (bind_run _ _ _ _ _ H1).
    apply bind_inv in H as (p2 & s2 & H2 & H). rewrite (bind_run _ _ _ _ _ H2).
    destruct p1 as [x1 y1], p2 as [x2 y2].
    apply bind_inv in H as (sp & s3 & H3 & H). rewrite (bind_run _ _ _ _ _ H3).
    apply bind_inv in H as (st & s4 & H4 & H). rewrite (bind_run _ _ _ _ _ H4).
    apply (IH _ f'); [lia|done].
Qed.

Lemma mono_segment i l : mono (λ fuel, segment distance fuel i l).
Proof.
  unfold segment.
  apply (mono_bind (λ _, _) (λ fuel p1, _)); [apply mono_const|]. intros p1.
  apply (mono_bind (λ _, _) (λ fuel p2, _)); [apply mono_const|]. intros p2.
  apply (mono_bind (λ fuel, insert_stops fuel _ _ _) (λ _ l', _));
    [apply mono_insert_stops|].
  intros l'. apply mono_const.
Qed.

Lemma mono_discretize : mono (discretize distance).
Proof.
  unfold discretize.
  apply (mono_bind (λ _, _) (λ fuel first, _)); [apply mono_const|]. intros first.
  apply (mono_bind (λ _, _) (λ fuel c0, _)); [apply mono_const|]. intros c0.
  apply (mono_bind (λ _, _) (λ fuel n, _)); [apply mono_const|]. intros n.
  apply (mono_bind (λ fuel, for_each (segment distance fuel) _ _) (λ _ l, _)).
  - apply (mono_for_each (segment distance)). apply mono_segment.
  - intros l. apply mono_const.
Qed.

Lemma mono_make : mono (make distance polyline_encode).
Proof.
  unfold make.
  apply (mono_bind (discretize distance) (λ _ l, _)); [apply mono_discretize|].
  intros l. apply mono_const.
Qed.

End make_frame.

(** ** Arithmetic and list facts used below *)

Lemma js_gt_true (a b : Q) : js_gt a b = true ↔ (b < a)%Q.
Proof.
  unfold js_gt, js_lt. rewrite negb_true_iff.
  split.
  - intros H. apply Qnot_le_lt. intros Hle.
    apply Qle_bool_iff in Hle. congruence.
  - intros H. destruct (Qle_bool a b) eqn:E; [|done].
    apply Qle_bool_iff in E. lra.
Qed.

Lemma js_gt_false (a b : Q) : js_gt a b = false ↔ (a <= b)%Q.
Proof.
  unfold js_gt, js_lt. rewrite negb_false_iff. apply Qle_bool_iff.
Qed.

Lemma inject_nat_succ (n : nat) :
  (inject_Z (Z.of_nat (S n)) == inject_Z (Z.of_nat n) + 1)%Q.
Proof. rewrite Nat2Z.inj_succ. unfold Z.succ. by rewrite inject_Z_plus. Qed.

(** Every distance is covered by some number of steps of positive length. *)
Lemma steps_cover (x d : Q) :
  (0 < d)%Q → ∃ n : nat, (x <= inject_Z (Z.of_nat n) * d)%Q.
Proof.
  intros Hd. destruct (Qarchimedean (x / d)) as [p Hp].
  exists (Pos.to_nat p). rewrite positive_nat_Z.
  apply Qlt_le_weak.
  assert (x == x / d * d)%Q as -> by (field; lra).
  by apply Qmult_lt_compat_r.
Qed.

Lemma count_true_app bs1 bs2 :
  count_true (bs1 ++ bs2) = count_true bs1 + count_true bs2.
Proof. unfold count_true. by rewrite filter_app, length_app. Qed.

Lemma count_true_singleton (b : bool) :
  count_true [b] = if b then 1 else 0.
Proof. by destruct b. Qed.

Lemma count_true_reverse bs : count_true (reverse bs) = count_true bs.
Proof.
  induction bs as [|b bs IH]; [done|].
  rewrite reverse_cons, count_true_app, IH, count_true_singleton.
  change (b :: bs) with ([b] ++ bs).
  rewrite count_true_app, count_true_singleton. lia.
Qed.

Lemma Qsum_app qs1 qs2 : (Qsum (qs1 ++ qs2) == Qsum qs1 + Qsum qs2)%Q.
Proof.
  induction qs1 as [|q qs1 IH]; simpl.
  - lra.
  - rewrite IH. lra.
Qed.

Lemma Qsum_reverse qs : (Qsum (reverse qs) == Qsum qs)%Q.
Proof.
  induction qs as [|q qs IH]; [done|].
  rewrite reverse_cons, Qsum_app, IH. simpl. lra.
Qed.

Lemma hops_total_snoc hs h :
  (hops_total (hs ++ [h]) == hops_total hs + to_number h)%Q.
Proof. unfold hops_total. rewrite fmap_app, Qsum_app. simpl. lra. Qed.

Lemma hops_total_reverse hs : (hops_total (reverse hs) == hops_total hs)%Q.
Proof. unfold hops_total. by rewrite fmap_reverse, Qsum_reverse. Qed.

Lemma head_snoc_Some {A} (xs : list A) x y :
  head xs = Some x → head (xs ++ [y]) = Some x.
Proof. intros H. by rewrite head_snoc, H. Qed.

(** ** From the discretization to the document *)

Lemma mapM_run {S A B} (g : A → M S B) (h : A → B) (s : S) xs :
  (∀ x, g x s = (Ret (h x), s)) → mapM g xs s = (Ret (h <$> xs), s).
Proof.
  intros Hg. induction xs as [|x xs IH]; [done|]. simpl.
  rewrite (bind_run _ _ _ _ _ (Hg x)).
  by rewrite (bind_run _ _ _ _ _ IH).
Qed.

Section timetable_facts.
Import TripPattern.
Variable distance : coord → coord → Q.
Variable polyline_encode : list coord → string.
Variable this : t.

Lemma on_period_run {A} i w (m : M TimeWindow.t A) a :
  _windows this !! i = Some w → m w = (Ret a, w) →
  on_period i m this = (Ret a, this).
Proof.
  intros Hi Hm. unfold on_period. rewrite Hi, Hm.
  by rewrite list_insert_id, set_windows_id.
Qed.

Lemma timetable_run l i tts w :
  _windows this !! i = Some w →
  timetable l i tts this = (Ret (tts ++ [timetable_of l w]), this).
Proof.
  intros Hi. unfold timetable.
  repeat (erewrite bind_run; [|by apply (on_period_run _ _ _ _ Hi)]).
  erewrite bind_run; cycle 1.
  { apply (mapM_run _
      (λ v, js_mul (js_div (to_number v / 1000)%Q (TimeWindow._speed w)) 3600%Q)).
    intros v. erewrite bind_run; [|by apply (on_period_run _ _ _ _ Hi)]. done. }
  repeat (erewrite bind_run; [|by apply (on_period_run _ _ _ _ Hi)]).
  done.
Qed.

Lemma timetables_run l k :
  ∀ a tts, a + k = length (_windows this) →
    for_each (timetable l) (seq a k) tts this
    = (Ret (tts ++ (timetable_of l <$> drop a (_windows this))), this).
Proof.
  induction k as [|k IH]; intros a tts Hlen; simpl.
  - rewrite drop_ge by lia. by rewrite app_nil_r.
  - destruct (lookup_lt_is_Some_2 (_windows this) a) as [w Hw]; [lia|].
    rewrite (bind_run _ _ _ _ _ (timetable_run l a tts w Hw)).
    rewrite IH by lia. rewrite (drop_S _ _ _ Hw). simpl.
    by rewrite <- app_assoc.
Qed.

Lemma latlon_run cs :
  Forall is_Some cs →
  ∃ ps, mapM lat_lon cs this = (Ret ps, this).
Proof.
  induction 1 as [|c cs [[x y] ->] _ [ps IH]]; simpl.
  - by eexists.
  - rewrite (bind_run _ _ this (y, x) this) by done.
    rewrite (bind_run _ _ _ _ _ IH). by eexists.
Qed.

(** The document, given the discretization. *)
Lemma make_run fuel l :
  discretize distance fuel this = (Ret l, this) →
  Forall is_Some (newGeometry l) →
  ∃ doc, make distance polyline_encode fuel this = (Ret doc, this)
    ∧ AddTripPattern.type doc = "add-trip-pattern"
    ∧ AddTripPattern.name doc = _name this
    ∧ AddTripPattern.stops doc = stopIndices l
    ∧ AddTripPattern.timetables doc = timetable_of l <$> _windows this.
Proof.
  intros Hl Hgeo. destruct (latlon_run _ Hgeo) as [ps Hps].
  eexists. split.
  - unfold make.
    rewrite (bind_run _ _ _ _ _ Hl).
    rewrite (bind_run (gets _) _ this _ this eq_refl).
    rewrite (bind_run _ _ _ _ _ (timetables_run l _ 0 [] eq_refl)).
    rewrite (bind_run (gets _) _ this _ this eq_refl).
    rewrite (bind_run _ _ _ _ _ Hps).
    reflexivity.
  - by rewrite drop_0.
Qed.

(** The discretization, given the document. *)
Lemma make_inv fuel doc this' :
  make distance polyline_encode fuel this = (Ret doc, this') →
  ∃ l, discretize distance fuel this = (Ret l, this)
    ∧ AddTripPattern.name doc = _name this
    ∧ AddTripPattern.stops doc = stopIndices l
    ∧ AddTripPattern.timetables doc = timetable_of l <$> _windows this.
Proof.
  intros H. unfold make in H.
  apply bind_inv in H as (l & s1 & Hl & H).
  pose proof (readonly_discretize distance fuel this) as Hro.
  rewrite Hl in Hro. simpl in Hro. subst s1.
  exists l. split; [done|].
  rewrite (bind_run (gets _) _ this _ this eq_refl) in H.
  rewrite (bind_run _ _ _ _ _ (timetables_run l _ 0 [] eq_refl)) in H.
  rewrite (bind_run (gets _) _ this _ this eq_refl) in H.
  apply bind_inv in H as (ps & s2 & Hps & H).
  injection H as <- _. simpl. by rewrite drop_0.
Qed.

End timetable_facts.

(** ** The discretization of a well-formed line *)

Section discretize_facts.
Import TripPattern.
Variable distance : coord → coord → Q.
Variable polyline_encode : list coord → string.
Variables (this : t) (coords : list coord) (s : Q).
Hypothesis Hgeom : _geometry this = Some coords.
Hypothesis Hspacing : _spacing this = Some s.
Hypothesis Hpos : (0 < s)%Q.

Lemma coordinates_run : coordinates this = (Ret coords, this).
Proof. unfold coordinates, mbind, M_bind, gets. by rewrite Hgeom. Qed.

Lemma coordinate_run i : coordinate i this = (Ret (coords !! i), this).
Proof. unfold coordinate. by rewrite (bind_run _ _ _ _ _ coordinates_run). Qed.

Lemma point_run i p :
  coords !! i = Some p → (coordinate i ≫= defined) this = (Ret p, this).
Proof. intros H. rewrite (bind_run _ _ _ _ _ (coordinate_run i)). by rewrite H. Qed.

Lemma length_run : (length <$> coordinates) this = (Ret (length coords), this).
Proof. apply fmap_run, coordinates_run. Qed.

Lemma spacing_km_run : spacing_km this = (Ret (s / 1000)%Q, this).
Proof. unfold spacing_km, mbind, M_bind, gets. by rewrite Hspacing. Qed.

(** The [while] loop returns once it has been given as many iterations as
    there are spacings between [nextStop] and [accumulator]. *)
Lemma insert_stops_run i segLen p1 p2 n :
  coords !! (i - 1) = Some p1 → coords !! i = Some p2 →
  ∀ l, inv s false l →
    (accumulator l - nextStop l <= inject_Z (Z.of_nat n) * (s / 1000))%Q →
    ∃ l', insert_stops n i segLen l this = (Ret l', this)
          ∧ inv s false l' ∧ accumulator l' = accumulator l.
Proof.
  intros H1 H2. induction n as [|n IH]; intros l Hinv Hn.
  - exists l. split; [|done]. simpl.
    assert (js_gt (accumulator l) (nextStop l) = false) as ->; [|done].
    apply js_gt_false. change (inject_Z (Z.of_nat 0)) with 0%Q in Hn. lra.
  - simpl. destruct (js_gt (accumulator l) (nextStop l)) eqn:Hgt.
    2: { by exists l. }
    apply js_gt_true in Hgt.
    rewrite (bind_run _ _ _ _ _ (point_run _ _ H1)).
    rewrite (bind_run _ _ _ _ _ (point_run _ _ H2)).
    destruct p1 as [x1 y1], p2 as [x2 y2].
    rewrite (bind_run (gets _spacing) _ this (_spacing this) this eq_refl).
    rewrite (bind_run _ _ _ _ _ spacing_km_run).
    rewrite Hspacing.
    match goal with |- ∃ _, insert_stops _ _ _ ?l1 _ = _ ∧ _ =>
      destruct (IH l1) as (l' & Hrun & Hinv' & Hacc) end.
    + destruct Hinv. split; simpl.
      * by apply head_snoc_Some.
      * done.
      * rewrite count_true_app, length_app. simpl. unfold count_true at 2. simpl. lia.
      * rewrite length_app. simpl. lia.
      * apply Forall_app. split; [done|]. by constructor.
      * rewrite hops_total_snoc. simpl.
        assert (s == s / 1000 * 1000)%Q by (field; lra). lra.
      * apply Forall_app. split; [done|]. by repeat constructor.
      * rewrite !length_app. simpl. lia.
    + simpl. rewrite inject_nat_succ in Hn. lra.
    + exists l'. by split.
Qed.

(** One segment.  The vertex that ends it is a stop exactly when it is
    the last one of the line. *)
Lemma segment_run i p1 p2 l :
  coords !! (i - 1) = Some p1 → coords !! i = Some p2 → inv s false l →
  ∃ l' fuel, segment distance fuel i l this = (Ret l', this)
     ∧ inv s (bool_decide (i = length coords - 1)) l'
     ∧ accumulator l' = (accumulator l + distance p1 p2)%Q.
Proof.
  intros H1 H2 Hinv.
  set (l0 := {| accumulator := accumulator l + distance p1 p2;
                nextStop := nextStop l; stopIndices := stopIndices l;
                nStops := nStops l; hops := hops l;
                newGeometry := newGeometry l |}).
  assert (0 < s / 1000)%Q as Hstep by (apply Qlt_shift_div_l; lra).
  destruct (steps_cover (accumulator l0 - nextStop l0) _ Hstep) as [n Hn].
  assert (inv s false l0) as Hinv0 by (by destruct Hinv).
  destruct (insert_stops_run i (distance p1 p2) p1 p2 n H1 H2 l0 Hinv0 Hn)
    as (l1 & Hrun & Hinv1 & Hacc).
  eexists _, n. split; [|split].
  - unfold segment.
    rewrite (bind_run _ _ _ _ _ (point_run _ _ H1)).
    rewrite (bind_run _ _ _ _ _ (point_run _ _ H2)).
    rewrite (bind_run _ _ _ _ _ Hrun).
    rewrite (bind_run _ _ _ _ _ (coordinate_run i)).
    rewrite (bind_run _ _ _ _ _ length_run).
    reflexivity.
  - destruct Hinv1. split; simpl.
    + by apply head_snoc_Some.
    + intros ->. apply last_snoc.
    + rewrite count_true_app, count_true_singleton.
      destruct (bool_decide _); lia.
    + done.
    + done.
    + done.
    + apply Forall_app. split; [done|]. rewrite H2. by repeat constructor.
    + rewrite !length_app. simpl. lia.
  - simpl. by rewrite Hacc.
Qed.

Lemma geometry_length_drop i p1 p2 :
  coords !! i = Some p1 → coords !! S i = Some p2 →
  geometry_length distance (drop i coords)
  = (distance p1 p2 + geometry_length distance (drop (S i) coords))%Q.
Proof.
  intros H1 H2. rewrite (drop_S _ _ _ H1), (drop_S _ _ _ H2). done.
Qed.

(** The [for] loop from segment [a] to the end of the line. *)
Lemma segments_run k :
  ∀ a l, S a + S k = length coords → inv s false l →
    ∃ l' fuel,
      for_each (segment distance fuel) (seq (S a) (S k)) l this = (Ret l', this)
      ∧ inv s true l'
      ∧ (accumulator l'
         == accumulator l + geometry_length distance (drop a coords))%Q.
Proof.
  induction k as [|k IH]; intros a l Hlen Hinv.
  - destruct (lookup_lt_is_Some_2 coords a) as [p1 H1]; [lia|].
    destruct (lookup_lt_is_Some_2 coords (S a)) as [p2 H2]; [lia|].
    destruct (segment_run (S a) p1 p2 l) as (l' & fuel & Hrun & Hinv' & Hacc);
      [by rewrite Nat.sub_1_r|done..|].
    exists l', fuel. split; [|split].
    + simpl. by rewrite (bind_run _ _ _ _ _ Hrun).
    + rewrite bool_decide_eq_true_2 in Hinv' by lia. done.
    + rewrite Hacc, (geometry_length_drop a p1 p2) by done.
      rewrite (drop_S _ _ _ H2), drop_ge by lia. simpl. lra.
  - destruct (lookup_lt_is_Some_2 coords a) as [p1 H1]; [lia|].
    destruct (lookup_lt_is_Some_2 coords (S a)) as [p2 H2]; [lia|].
    destruct (segment_run (S a) p1 p2 l) as (l1 & f1 & Hrun1 & Hinv1 & Hacc1);
      [by rewrite Nat.sub_1_r|done..|].
    rewrite bool_decide_eq_false_2 in Hinv1 by lia.
    destruct (IH (S a) l1) as (l' & f2 & Hrun2 & Hinv' & Hacc'); [lia|done|].
    exists l', (f1 `max` f2). split; [|split].
    + change (seq (S a) (S (S k))) with (S a :: seq (S (S a)) (S k)).
      cbn [for_each].
      apply (mono_segment distance _ _ f1 (f1 `max` f2)) in Hrun1; [|lia].
      rewrite (bind_run _ _ _ _ _ Hrun1).
      apply (mono_for_each (segment distance) _ (mono_segment distance)
               _ f2 (f1 `max` f2)) in Hrun2; [done|lia].
    + done.
    + rewrite Hacc', Hacc1, (geometry_length_drop a p1 p2) by done. lra.
Qed.

Lemma discretize_run :
  2 ≤ length coords →
  ∃ l fuel, discretize distance fuel this = (Ret l, this) ∧ discretized distance this coords s l.
Proof.
  intros Hlen.
  destruct (lookup_lt_is_Some_2 coords 0) as [c0 Hc0]; [lia|].
  set (l0 := {| accumulator := 0; nextStop := s / 1000; stopIndices := [true];
                nStops := 2; hops := []; newGeometry := [coords !! 0] |}).
  assert (inv s false l0) as Hinv0.
  { split; simpl; try done.
    - unfold hops_total. simpl. lra.
    - rewrite Hc0. by repeat constructor. }
  destruct (segments_run (length coords - 2) 0 l0) as (l & fuel & Hrun & Hinv & Hacc);
    [lia|done|].
  replace (S (length coords - 2)) with (length coords - 1) in Hrun by lia.
  rewrite drop_0 in Hacc. simpl in Hacc.
  assert (hops_total (hops l ++
            [Some ((accumulator l - (nextStop l - s / 1000)) * 1000)%Q])
          == geometry_length distance coords * 1000)%Q as Htotal.
  { rewrite hops_total_snoc. simpl. pose proof (inv_next _ _ _ Hinv). lra. }
  destruct Hinv as [Hfirst Hlast Hcount HnStops Hhops Hnext Hgeo Hlength].
  specialize (Hlast eq_refl).
  destruct (_reversed this) eqn:Hrev;
    (eexists _, fuel; split;
     [ unfold discretize;
       rewrite (bind_run _ _ _ _ _ spacing_km_run);
       rewrite (bind_run _ _ _ _ _ (coordinate_run 0));
       rewrite (bind_run _ _ _ _ _ length_run);
       rewrite (bind_run _ _ _ _ _ Hrun);
       rewrite (bind_run _ _ _ _ _ spacing_km_run);
       rewrite (bind_run (gets _reversed) _ this _ this eq_refl);
       rewrite Hrev; reflexivity
     | split; simpl; rewrite ?Hrev ]).
  - by rewrite head_reverse.
  - by rewrite last_reverse.
  - rewrite count_true_reverse, length_reverse, length_app. simpl. lia.
  - rewrite count_true_reverse. lia.
  - by exists (hops l).
  - by rewrite hops_total_reverse.
  - by apply Forall_reverse.
  - by rewrite !length_reverse.
  - done.
  - done.
  - rewrite length_app. simpl. lia.
  - lia.
  - by exists (hops l).
  - done.
  - done.
  - done.
Qed.

(** Whatever fuel a run that returns was given, it returns the
    discretization described above. *)
Lemma discretize_inv fuel l this' :
  2 ≤ length coords →
  discretize distance fuel this = (Ret l, this') → discretized distance this coords s l.
Proof.
  intros Hlen Hl. destruct (discretize_run Hlen) as (l0 & fuel0 & Hl0 & Hd).
  by destruct (mono_agree _ _ _ _ _ _ _ _ (mono_discretize distance) Hl Hl0) as [-> _].
Qed.

End discretize_facts.

(** ** Inputs that [make] does not check *)

Section unchecked_inputs.
Import TripPattern.
Variable distance : coord → coord → Q.
Variable polyline_encode : list coord → string.
Variable this : t.

Lemma bind_timeout {S A B} (m : M S A) (k : A → M S B) s s' :
  m s = (Timeout, s') → (m ≫= k) s = (Timeout, s').
Proof. intros H. unfold mbind, M_bind. by rewrite H. Qed.

(** A line without a second vertex has no segment: the loops do not run. *)
Lemma discretize_short fuel coords :
  _geometry this = Some coords → length coords < 2 →
  ∃ l, discretize distance fuel this = (Ret l, this)
     ∧ stopIndices l = [true] ∧ newGeometry l = [coords !! 0]
     ∧ nStops l = 2 ∧ length (hops l) = 1.
Proof.
  intros Hgeom Hlen.
  assert (seq 1 (length coords - 1) = []) as Hseq.
  { destruct coords as [|c [|]]; simpl in *; [done|done|lia]. }
  destruct (_reversed this) eqn:Hrev;
    (eexists; split;
     [ unfold discretize;
       rewrite (bind_run spacing_km _ this _ this eq_refl);
       rewrite (bind_run _ _ _ _ _ (coordinate_run _ _ Hgeom 0));
       rewrite (bind_run _ _ _ _ _ (length_run _ _ Hgeom));
       rewrite Hseq; cbn [for_each];
       rewrite (bind_run (mret _) _ this _ this eq_refl);
       rewrite (bind_run spacing_km _ this _ this eq_refl);
       rewrite (bind_run (gets _reversed) _ this _ this eq_refl);
       rewrite Hrev; reflexivity
     | done ]).
Qed.

Lemma make_empty fuel :
  _geometry this = Some [] →
  ∃ msg, make distance polyline_encode fuel this = (Throw (TypeError msg), this).
Proof.
  intros Hgeom.
  destruct (discretize_short fuel [] Hgeom) as (l & Hl & _ & Hgeo & _);
    [simpl; lia|].
  eexists. unfold make.
  rewrite (bind_run _ _ _ _ _ Hl).
  rewrite (bind_run (gets _) _ this _ this eq_refl).
  rewrite (bind_run _ _ _ _ _ (timetables_run this l _ 0 [] eq_refl)).
  rewrite (bind_run (gets _) _ this _ this eq_refl).
  rewrite Hgeo. reflexivity.
Qed.

Lemma make_single_point fuel c :
  _geometry this = Some [c] →
  ∃ doc, make distance polyline_encode fuel this = (Ret doc, this)
       ∧ AddTripPattern.stops doc = [true].
Proof.
  intros Hgeom.
  destruct (discretize_short fuel [c] Hgeom) as (l & Hl & Hstops & Hgeo & _);
    [simpl; lia|].
  destruct (make_run distance polyline_encode this fuel l Hl)
    as (doc & Hdoc & _ & _ & Hs & _).
  { rewrite Hgeo. by repeat constructor. }
  exists doc. by rewrite Hs.
Qed.

(** With a spacing that is not positive, [nextStop] never catches up with
    [accumulator]: the loop uses up whatever fuel it is given. *)
Lemma insert_stops_diverges coords i segLen p1 p2 :
  _geometry this = Some coords →
  coords !! (i - 1) = Some p1 → coords !! i = Some p2 →
  (to_number (_spacing this) <= 0)%Q →
  ∀ fuel l, (nextStop l < accumulator l)%Q →
    insert_stops fuel i segLen l this = (Timeout, this).
Proof.
  intros Hgeom H1 H2 Hs fuel.
  induction fuel as [|fuel IH]; intros l Hlt; simpl;
    rewrite (proj2 (js_gt_true _ _) Hlt); [done|].
  rewrite (bind_run _ _ _ _ _ (point_run _ _ Hgeom _ _ H1)).
  rewrite (bind_run _ _ _ _ _ (point_run _ _ Hgeom _ _ H2)).
  destruct p1 as [x1 y1], p2 as [x2 y2].
  rewrite (bind_run (gets _spacing) _ this _ this eq_refl).
  rewrite (bind_run spacing_km _ this _ this eq_refl).
  apply IH. simpl.
  assert (to_number (_spacing this) / 1000 <= 0)%Q.
  { apply Qle_shift_div_r; lra. }
  lra.
Qed.

Lemma make_diverges c0 c1 rest fuel :
  _geometry this = Some (c0 :: c1 :: rest) →
  (to_number (_spacing this) <= 0)%Q → (0 < distance c0 c1)%Q →
  make distance polyline_encode fuel this = (Timeout, this).
Proof.
  intros Hgeom Hs Hd.
  assert (to_number (_spacing this) / 1000 <= 0)%Q as Hkm.
  { apply Qle_shift_div_r; lra. }
  unfold make. apply bind_timeout.
  unfold discretize.
  rewrite (bind_run spacing_km _ this _ this eq_refl).
  rewrite (bind_run _ _ _ _ _ (coordinate_run _ _ Hgeom 0)).
  rewrite (bind_run _ _ _ _ _ (length_run _ _ Hgeom)).
  apply bind_timeout. simpl. apply bind_timeout.
  unfold segment.
  rewrite (bind_run _ _ this c0 this) by (by apply (point_run _ _ Hgeom)).
  rewrite (bind_run _ _ this c1 this) by (by apply (point_run _ _ Hgeom)).
  apply bind_timeout.
  apply (insert_stops_diverges _ 1 _ c0 c1 Hgeom); [done..|].
  simpl. lra.
Qed.

(** A speed of zero is divided by: the hop times are not finite. *)
Lemma hop_times_not_finite l w :
  (TimeWindow._speed w == 0)%Q →
  Forall (λ h, ∀ q, h ≠ Fin q) (Timetable.hopTimes (timetable_of l w)).
Proof.
  intros Hw. simpl. apply Forall_fmap, Forall_true. intros v. simpl.
  unfold js_div. rewrite (proj2 (Qeq_bool_iff _ _) Hw).
  by destruct (_ ?= _)%Q.
Qed.

End unchecked_inputs.

(** ** Which runs of [make] raise, which return, which do neither *)

Lemma geometry_length_take_S (distance : coord → coord → Q) coords j p1 p2 :
  coords !! j = Some p1 → coords !! S j = Some p2 →
  (geometry_length distance (take (S (S j)) coords)
   == geometry_length distance (take (S j) coords) + distance p1 p2)%Q.
Proof.
  revert coords. induction j as [|j IH]; intros [|c0 [|c1 cs]] H1 H2; try done.
  - injection H1 as <-. injection H2 as <-.
    change (take 2 (c0 :: c1 :: cs)) with (c0 :: c1 :: take 0 cs).
    change (take 1 (c0 :: c1 :: cs)) with (c0 :: take 0 (c1 :: cs)).
    rewrite !take_0. cbn [geometry_length]. lra.
  - specialize (IH (c1 :: cs) H1 H2).
    change (take (S (S (S j))) (c0 :: c1 :: cs))
      with (c0 :: take (S (S j)) (c1 :: cs)).
    change (take (S (S j)) (c0 :: c1 :: cs)) with (c0 :: take (S j) (c1 :: cs)).
    change (take (S (S j)) (c1 :: cs)) with (c1 :: take (S j) cs) in *.
    change (take (S j) (c1 :: cs)) with (c1 :: take j cs) in *.
    cbn [geometry_length] in *. lra.
Qed.

Section make_outcomes.
Import TripPattern.
Variable distance : coord → coord → Q.
Variable polyline_encode : list coord → string.
Variables (this : t) (coords : list coord).
Hypothesis Hgeom : _geometry this = Some coords.

(** Reads inside the line never raise: the [while] loop returns or uses
    up its fuel, and pushes defined coordinates only. *)
Lemma insert_stops_no_throw i segLen p1 p2 :
  coords !! (i - 1) = Some p1 → coords !! i = Some p2 →
  ∀ fuel l, Forall is_Some (newGeometry l) →
    (∃ l', insert_stops fuel i segLen l this = (Ret l', this)
           ∧ Forall is_Some (newGeometry l'))
    ∨ insert_stops fuel i segLen l this = (Timeout, this).
Proof.
  intros H1 H2 fuel.
  induction fuel as [|fuel IH]; intros l Hl; simpl;
    destruct (js_gt (accumulator l) (nextStop l)).
  - by right.
  - left. by exists l.
  - rewrite (bind_run _ _ _ _ _ (point_run _ _ Hgeom _ _ H1)).
    rewrite (bind_run _ _ _ _ _ (point_run _ _ Hgeom _ _ H2)).
    destruct p1 as [x1 y1], p2 as [x2 y2].
    rewrite (bind_run (gets _spacing) _ this _ this eq_refl).
    rewrite (bind_run spacing_km _ this _ this eq_refl).
    apply IH. simpl. apply Forall_app. split; [done|]. by repeat constructor.
  - left. by exists l.
Qed.

Lemma segment_no_throw fuel i l :
  1 ≤ i < length coords → Forall is_Some (newGeometry l) →
  (∃ l', segment distance fuel i l this = (Ret l', this)
         ∧ Forall is_Some (newGeometry l'))
  ∨ segment distance fuel i l this = (Timeout, this).
Proof.
  intros Hi Hl.
  destruct (lookup_lt_is_Some_2 coords (i - 1)) as [p1 H1]; [lia|].
  destruct (lookup_lt_is_Some_2 coords i) as [p2 H2]; [lia|].
  unfold segment.
  rewrite (bind_run _ _ _ _ _ (point_run _ _ Hgeom _ _ H1)).
  rewrite (bind_run _ _ _ _ _ (point_run _ _ Hgeom _ _ H2)).
  match goal with |- context [insert_stops fuel i ?d ?l0] =>
    destruct (insert_stops_no_throw i d p1 p2 H1 H2 fuel l0 Hl)
      as [(l1 & Hl1 & Hgeo1)|Hout] end.
  - left. eexists.
    rewrite (bind_run _ _ _ _ _ Hl1).
    rewrite (bind_run _ _ _ _ _ (coordinate_run _ _ Hgeom i)).
    rewrite (bind_run _ _ _ _ _ (length_run _ _ Hgeom)).
    split; [reflexivity|]. simpl.
    apply Forall_app. split; [done|]. rewrite H2. by repeat constructor.
  - right. by apply bind_timeout.
Qed.

Lemma segments_no_throw fuel k :
  ∀ a l, 1 ≤ a → a + k ≤ length coords → Forall is_Some (newGeometry l) →
    (∃ l', for_each (segment distance fuel) (seq a k) l this = (Ret l', this)
           ∧ Forall is_Some (newGeometry l'))
    ∨ for_each (segment distance fuel) (seq a k) l this = (Timeout, this).
Proof.
  induction k as [|k IH]; intros a l Ha Hk Hl; simpl.
  - left. by exists l.
  - destruct (segment_no_throw fuel a l) as [(l1 & Hl1 & Hgeo1)|Hout];
      [lia|done| |].
    + rewrite (bind_run _ _ _ _ _ Hl1). apply IH; [lia|lia|done].
    + right. by apply bind_timeout.
Qed.

Lemma discretize_no_throw fuel :
  1 ≤ length coords →
  (∃ l, discretize distance fuel this = (Ret l, this)
        ∧ Forall is_Some (newGeometry l))
  ∨ discretize distance fuel this = (Timeout, this).
Proof.
  intros Hlen.
  destruct (lookup_lt_is_Some_2 coords 0) as [c0 H0]; [lia|].
  unfold discretize.
  rewrite (bind_run spacing_km _ this _ this eq_refl).
  rewrite (bind_run _ _ _ _ _ (coordinate_run _ _ Hgeom 0)).
  rewrite (bind_run _ _ _ _ _ (length_run _ _ Hgeom)).
  match goal with |- context [for_each _ _ ?l0] =>
    destruct (segments_no_throw fuel (length coords - 1) 1 l0)
      as [(l & Hl & Hgeo)|Hout] end; [lia|lia| | |].
  - simpl. rewrite H0. by repeat constructor.
  - left. rewrite (bind_run _ _ _ _ _ Hl).
    rewrite (bind_run spacing_km _ this _ this eq_refl).
    rewrite (bind_run (gets _reversed) _ this _ this eq_refl).
    destruct (_reversed this); eexists; (split; [reflexivity|]); simpl;
      [by apply Forall_reverse|done].
  - right. by apply bind_timeout.
Qed.

(** With a first coordinate to read, [make] does not raise. *)
Lemma make_no_throw fuel :
  1 ≤ length coords →
  (∃ doc, make distance polyline_encode fuel this = (Ret doc, this))
  ∨ make distance polyline_encode fuel this = (Timeout, this).
Proof.
  intros Hlen.
  destruct (discretize_no_throw fuel Hlen) as [(l & Hl & Hgeo)|Hout].
  - left.
    destruct (make_run distance polyline_encode this fuel l Hl Hgeo)
      as (doc & Hdoc & _).
    by exists doc.
  - right. unfold make. by apply bind_timeout.
Qed.

(** A segment that does not lift the running length above the next stop
    pushes its end vertex and nothing else. *)
Lemma segment_quiet fuel j l p1 p2 :
  coords !! (j - 1) = Some p1 → coords !! j = Some p2 →
  js_gt (accumulator l + distance p1 p2) (nextStop l) = false →
  segment distance fuel j l this
  = (Ret {| accumulator := accumulator l + distance p1 p2;
            nextStop := nextStop l;
            stopIndices := stopIndices l ++ [bool_decide (j = length coords - 1)];
            nStops := nStops l;
            hops := hops l;
            newGeometry := newGeometry l ++ [Some p2] |}, this).
Proof.
  intros H1 H2 Hgt. unfold segment.
  rewrite (bind_run _ _ _ _ _ (point_run _ _ Hgeom _ _ H1)).
  rewrite (bind_run _ _ _ _ _ (point_run _ _ Hgeom _ _ H2)).
  erewrite bind_run; cycle 1.
  { destruct fuel; simpl; rewrite Hgt; reflexivity. }
  rewrite (bind_run _ _ _ _ _ (coordinate_run _ _ Hgeom j)).
  rewrite (bind_run _ _ _ _ _ (length_run _ _ Hgeom)).
  by rewrite H2.
Qed.

(** A segment that does, with a spacing that is not positive, never ends. *)
Lemma segment_loud fuel j l p1 p2 :
  coords !! (j - 1) = Some p1 → coords !! j = Some p2 →
  (to_number (_spacing this) <= 0)%Q →
  js_gt (accumulator l + distance p1 p2) (nextStop l) = true →
  segment distance fuel j l this = (Timeout, this).
Proof.
  intros H1 H2 Hs Hgt. unfold segment.
  rewrite (bind_run _ _ _ _ _ (point_run _ _ Hgeom _ _ H1)).
  rewrite (bind_run _ _ _ _ _ (point_run _ _ Hgeom _ _ H2)).
  apply bind_timeout.
  apply (insert_stops_diverges this coords j _ p1 p2 Hgeom H1 H2 Hs).
  simpl. by apply js_gt_true.
Qed.

(** The [for] loop as long as [nextStop] is where it started. *)
Lemma segments_before_first_stop k :
  ∀ a l, 1 ≤ a → a + k ≤ length coords →
    (accumulator l == geometry_length distance (take a coords))%Q →
    Forall is_Some (newGeometry l) →
    ((∀ j, a ≤ j < a + k →
        (geometry_length distance (take (S j) coords) <= nextStop l)%Q) →
     ∃ l', (∀ fuel,
              for_each (segment distance fuel) (seq a k) l this = (Ret l', this))
           ∧ Forall is_Some (newGeometry l'))
    ∧ ((to_number (_spacing this) <= 0)%Q →
       (∃ j, a ≤ j < a + k
             ∧ (nextStop l < geometry_length distance (take (S j) coords))%Q) →
       ∀ fuel,
         for_each (segment distance fuel) (seq a k) l this = (Timeout, this)).
Proof.
  induction k as [|k IH]; intros a l Ha Hk Hacc Hl.
  - split.
    + intros _. by exists l.
    + intros _ (j & Hj & _). lia.
  - destruct (lookup_lt_is_Some_2 coords (a - 1)) as [p1 H1]; [lia|].
    destruct (lookup_lt_is_Some_2 coords a) as [p2 H2]; [lia|].
    assert (accumulator l + distance p1 p2
            == geometry_length distance (take (S a) coords))%Q as Hacc'.
    { rewrite Hacc. symmetry.
      replace a with (S (a - 1)) at 1 2 by lia.
      apply geometry_length_take_S; [done|]. by replace (S (a - 1)) with a by lia. }
    set (l1 := {| accumulator := accumulator l + distance p1 p2;
                  nextStop := nextStop l;
                  stopIndices :=
                    stopIndices l ++ [bool_decide (a = length coords - 1)];
                  nStops := nStops l;
                  hops := hops l;
                  newGeometry := newGeometry l ++ [Some p2] |}).
    assert (Forall is_Some (newGeometry l1)) as Hl1.
    { simpl. apply Forall_app. split; [done|]. by repeat constructor. }
    destruct (IH (S a) l1) as [IHquiet IHloud]; [lia|lia|done|done|].
    split.
    + intros Hquiet.
      assert (js_gt (accumulator l + distance p1 p2) (nextStop l) = false) as Hgt.
      { apply js_gt_false. rewrite Hacc'. apply Hquiet. lia. }
      destruct IHquiet as (l' & Hl' & Hgeo').
      { intros j Hj. apply Hquiet. lia. }
      exists l'. split; [|done]. intros fuel. simpl.
      rewrite (bind_run _ _ _ _ _ (segment_quiet fuel a l p1 p2 H1 H2 Hgt)).
      apply Hl'.
    + intros Hs (j & Hj & Hloud) fuel. simpl.
      destruct (js_gt (accumulator l + distance p1 p2) (nextStop l)) eqn:Hgt.
      * apply bind_timeout. by apply (segment_loud fuel a l p1 p2).
      * rewrite (bind_run _ _ _ _ _ (segment_quiet fuel a l p1 p2 H1 H2 Hgt)).
        apply IHloud; [done|].
        exists j. split; [|done].
        apply js_gt_false in Hgt. rewrite Hacc' in Hgt.
        destruct (decide (j = a)) as [->|]; [lra|lia].
Qed.

(** With a spacing that is not positive, [make] never ends if the running
    length of the line ever exceeds the spacing in kilometers, and returns
    if it never does. *)
Lemma make_nonpositive_spacing :
  2 ≤ length coords →
  ((∀ j, 1 ≤ j < length coords →
      (geometry_length distance (take (S j) coords)
       <= to_number (_spacing this) / 1000)%Q) →
   ∀ fuel, ∃ doc, make distance polyline_encode fuel this = (Ret doc, this))
  ∧ ((to_number (_spacing this) <= 0)%Q →
     (∃ j, 1 ≤ j < length coords
           ∧ (to_number (_spacing this) / 1000
              < geometry_length distance (take (S j) coords))%Q) →
     ∀ fuel, make distance polyline_encode fuel this = (Timeout, this)).
Proof.
  intros Hlen.
  destruct (lookup_lt_is_Some_2 coords 0) as [c0 H0]; [lia|].
  set (l0 := {| accumulator := 0; nextStop := to_number (_spacing this) / 1000;
                stopIndices := [true]; nStops := 2; hops := [];
                newGeometry := [coords !! 0] |}).
  destruct (segments_before_first_stop (length coords - 1) 1 l0)
    as [Hquiet Hloud]; [lia|lia| | |].
  { simpl. destruct coords; [done|]. by cbn [take geometry_length]. }
  { simpl. rewrite H0. by repeat constructor. }
  replace (1 + (length coords - 1)) with (length coords) in * by lia.
  assert (∀ fuel,
            discretize distance fuel this
            = (for_each (segment distance fuel) (seq 1 (length coords - 1)) l0
               ≫= λ l,
                 step ← spacing_km;
                 let last := ((accumulator l - (nextStop l - step)) * 1000)%Q in
                 reversed ← gets _reversed;
                 if reversed : bool then
                   mret {| accumulator := accumulator l;
                           nextStop := nextStop l;
                           stopIndices := list.reverse (stopIndices l);
                           nStops := nStops l;
                           hops := list.reverse (hops l ++ [Some last]);
                           newGeometry := list.reverse (newGeometry l) |}
                 else
                   mret {| accumulator := accumulator l;
                           nextStop := nextStop l;
                           stopIndices := stopIndices l;
                           nStops := nStops l;
                           hops := hops l ++ [Some last];
                           newGeometry := newGeometry l |}) this) as Hdisc.
  { intros fuel. unfold discretize.
    rewrite (bind_run spacing_km _ this _ this eq_refl).
    rewrite (bind_run _ _ _ _ _ (coordinate_run _ _ Hgeom 0)).
    by rewrite (bind_run _ _ _ _ _ (length_run _ _ Hgeom)). }
  split.
  - intros Hall fuel.
    destruct (Hquiet Hall) as (l & Hl & Hgeo).
    assert (∃ l', discretize distance fuel this = (Ret l', this)
                  ∧ Forall is_Some (newGeometry l')) as (l' & Hl' & Hgeo').
    { rewrite Hdisc, (bind_run _ _ _ _ _ (Hl fuel)).
      rewrite (bind_run spacing_km _ this _ this eq_refl).
      rewrite (bind_run (gets _reversed) _ this _ this eq_refl).
      destruct (_reversed this); eexists; (split; [reflexivity|]); simpl;
        [by apply Forall_reverse|done]. }
    destruct (make_run distance polyline_encode this fuel l' Hl' Hgeo')
      as (doc & Hdoc & _).
    by exists doc.
  - intros Hs Hex fuel. unfold make. apply bind_timeout.
    rewrite Hdisc. apply bind_timeout. by apply Hloud.
Qed.

End make_outcomes.

(** Without a geometry the first coordinate cannot be read. *)
Lemma make_null_geometry (distance : coord → coord → Q)
    (polyline_encode : list coord → string) (tp : TripPattern.t) fuel :
  TripPattern._geometry tp = None →
  ∃ msg, TripPattern.make distance polyline_encode fuel tp
         = (Throw (TypeError msg), tp).
Proof.
  intros Hgeom. eexists. unfold TripPattern.make, TripPattern.discretize.
  unfold mbind at 1, M_bind at 1.
  rewrite (bind_run TripPattern.spacing_km _ tp _ tp eq_refl).
  unfold mbind at 1, M_bind at 1.
  unfold TripPattern.coordinate, TripPattern.coordinates.
  unfold mbind at 1, M_bind at 1.
  rewrite (bind_run (gets TripPattern._geometry) _ tp _ tp eq_refl).
  rewrite Hgeom. reflexivity.
Qed.

(** ** The document of a well-formed trip pattern *)

Section make_claims.
Import TripPattern.
Variable distance : coord → coord → Q.
Variable polyline_encode : list coord → string.

(** A well-formed pattern has a document. *)
Lemma make_returns (tp : t) coords s :
  _geometry tp = Some coords → 2 ≤ length coords →
  _spacing tp = Some s → (0 < s)%Q →
  ∃ fuel doc l,
    make distance polyline_encode fuel tp = (Ret doc, tp)
    ∧ discretize distance fuel tp = (Ret l, tp)
    ∧ discretized distance tp coords s l
    ∧ AddTripPattern.name doc = _name tp
    ∧ AddTripPattern.stops doc = stopIndices l
    ∧ AddTripPattern.timetables doc = timetable_of l <$> _windows tp.
Proof.
  intros Hgeom Hlen Hs Hpos.
  destruct (discretize_run distance tp coords s Hgeom Hs Hpos Hlen)
    as (l & fuel & Hl & Hd).
  destruct (make_run distance polyline_encode tp fuel l Hl (d_geometry _ _ _ _ _ Hd))
    as (doc & Hdoc & _ & Hname & Hstops & Htts).
  by exists fuel, doc, l.
Qed.

(** Every document of a well-formed pattern comes from the discretization
    described by [discretized]. *)
Lemma make_returned (tp : t) coords s fuel doc :
  _geometry tp = Some coords → 2 ≤ length coords →
  _spacing tp = Some s → (0 < s)%Q →
  (make distance polyline_encode fuel tp).1 = Ret doc →
  ∃ l, discretize distance fuel tp = (Ret l, tp)
    ∧ discretized distance tp coords s l
    ∧ AddTripPattern.name doc = _name tp
    ∧ AddTripPattern.stops doc = stopIndices l
    ∧ AddTripPattern.timetables doc = timetable_of l <$> _windows tp.
Proof.
  intros Hgeom Hlen Hs Hpos Hdoc.
  destruct (make distance polyline_encode fuel tp) as [r tp'] eqn:Hmake.
  simpl in Hdoc. subst r.
  apply make_inv in Hmake as (l & Hl & Hname & Hstops & Htts).
  exists l. repeat split; try done.
  all: eapply discretize_inv; eauto.
Qed.

(** C1: for a geometry of at least two coordinates and a positive
    spacing, [make] produces a document, and in every document it produces
    the number of [true] entries of [stops] is the number of hop distances
    plus one, there is one timetable per time window, and every timetable
    has as many hop times as there are hop distances and as many dwell
    times as there are [true] entries in [stops]. *)
Theorem make_stop_and_hop_counts (tp : t) coords s :
  _geometry tp = Some coords → 2 ≤ length coords →
  _spacing tp = Some s → (0 < s)%Q →
  (∃ fuel doc, (make distance polyline_encode fuel tp).1 = Ret doc)
  ∧ ∀ fuel doc, (make distance polyline_encode fuel tp).1 = Ret doc →
      ∃ l, (discretize distance fuel tp).1 = Ret l
        ∧ count_true (AddTripPattern.stops doc) = length (hops l) + 1
        ∧ length (AddTripPattern.timetables doc) = length (_windows tp)
        ∧ Forall (λ tt,
            length (Timetable.hopTimes tt) = length (hops l)
            ∧ length (Timetable.dwellTimes tt)
              = count_true (AddTripPattern.stops doc))
            (AddTripPattern.timetables doc).
Proof.
  intros Hgeom Hlen Hs Hpos. split.
  - destruct (make_returns tp coords s) as (fuel & doc & l & Hdoc & _); [done..|].
    exists fuel, doc. by rewrite Hdoc.
  - intros fuel doc Hdoc.
    destruct (make_returned tp coords s fuel doc)
      as (l & Hl & Hd & _ & Hstops & Htts); [done..|].
    exists l. rewrite Hl, Hstops, Htts. split; [done|].
    destruct Hd as [_ _ Hcount HnStops _ _ _ _].
    split; [lia|]. split; [by rewrite length_fmap|].
    apply Forall_fmap, Forall_true. intros w. simpl.
    rewrite length_fmap, length_replicate. by split.
Qed.


(** C7: for a geometry of at least two coordinates and a positive
    spacing, [make] produces a document, and in every document it produces
    the first and the last element of [stops] are [true]. *)
Theorem make_first_last_stop (tp : t) coords s :
  _geometry tp = Some coords → 2 ≤ length coords →
  _spacing tp = Some s → (0 < s)%Q →
  (∃ fuel doc, (make distance polyline_encode fuel tp).1 = Ret doc)
  ∧ ∀ fuel doc, (make distance polyline_encode fuel tp).1 = Ret doc →
      head (AddTripPattern.stops doc) = Some true
      ∧ last (AddTripPattern.stops doc) = Some true.
Proof.
  intros Hgeom Hlen Hs Hpos. split.
  - destruct (make_returns tp coords s) as (fuel & doc & l & Hdoc & _); [done..|].
    exists fuel, doc. by rewrite Hdoc.
  - intros fuel doc Hdoc.
    destruct (make_returned tp coords s fuel doc)
      as (l & _ & Hd & _ & Hstops & _); [done..|].
    rewrite Hstops. by destruct Hd.
Qed.

End make_claims.

Lemma make_stop_and_hop_counts_witness :
  ∃ doc l,
    (TripPattern.make taxicab_km encode_length 2 example_line).1 = Ret doc
    ∧ (TripPattern.discretize taxicab_km 2 example_line).1 = Ret l
    ∧ count_true (AddTripPattern.stops doc) = length (TripPattern.hops l) + 1
    ∧ length (AddTripPattern.timetables doc) = 1
    ∧ Forall (λ tt,
        length (Timetable.hopTimes tt) = length (TripPattern.hops l)
        ∧ length (Timetable.dwellTimes tt)
          = count_true (AddTripPattern.stops doc))
        (AddTripPattern.timetables doc).
Proof.
  assert (2 ≤ length [(0, 0); (0, 1 # 100)]%Q) as Hlen by (simpl; lia).
  destruct (TripPattern.make taxicab_km encode_length 2 example_line).1
    as [doc| |] eqn:Hdoc; [|vm_compute in Hdoc; discriminate..].
  destruct (proj2 (make_stop_and_hop_counts taxicab_km encode_length
                     example_line _ 500%Q eq_refl Hlen eq_refl eq_refl)
                  2 doc Hdoc) as (l & Hl & H).
  exists doc, l. exact (conj eq_refl (conj Hl H)).
Defined.


Lemma make_first_last_stop_witness :
  ∃ doc, (TripPattern.make taxicab_km encode_length 2 example_line).1 = Ret doc
    ∧ head (AddTripPattern.stops doc) = Some true
    ∧ last (AddTripPattern.stops doc) = Some true.
Proof.
  assert (2 ≤ length [(0, 0); (0, 1 # 100)]%Q) as Hlen by (simpl; lia).
  destruct (TripPattern.make taxicab_km encode_length 2 example_line).1
    as [doc| |] eqn:Hdoc; [|vm_compute in Hdoc; discriminate..].
  exists doc.
  exact (conj eq_refl
           (proj2 (make_first_last_stop taxicab_km encode_length example_line
                     _ 500%Q eq_refl Hlen eq_refl eq_refl) 2 doc Hdoc)).
Defined.

Section builder_claims.
Import TripPattern.
Variable distance : coord → coord → Q.
Variable polyline_encode : list coord → string.

(** C3, as the code has it: [make] checks none of its inputs.  It raises
    exactly when there is no first coordinate to read, that is when the
    geometry is [null] or has no coordinates, and what it raises then is a
    TypeError of the runtime.  A geometry of one coordinate gives a document
    whose [stops] is [[true]].  No speed makes it raise, and in every
    document it returns the hop times of a window whose speed is zero are not
    finite.  With at least two coordinates and a positive spacing it returns
    a document (numbers being exact).  With at least two coordinates and a
    spacing that is not positive, or not set, it neither raises nor returns
    if the length of some initial stretch of the line exceeds the spacing in
    kilometers, as it does when the first segment has a positive length, and
    it returns a document otherwise. *)
Theorem make_unchecked_inputs (tp : t) :
  ((_geometry tp = None ∨ _geometry tp = Some []) →
     ∀ fuel, ∃ msg,
       (make distance polyline_encode fuel tp).1 = Throw (TypeError msg))
  ∧ (∀ c cs, _geometry tp = Some (c :: cs) →
     ∀ fuel e, (make distance polyline_encode fuel tp).1 ≠ Throw e)
  ∧ (∀ c, _geometry tp = Some [c] →
     ∀ fuel, ∃ doc,
       (make distance polyline_encode fuel tp).1 = Ret doc
       ∧ AddTripPattern.stops doc = [true])
  ∧ (∀ fuel doc,
       (make distance polyline_encode fuel tp).1 = Ret doc →
       length (AddTripPattern.timetables doc) = length (_windows tp)
       ∧ ∀ i w tt,
           _windows tp !! i = Some w →
           AddTripPattern.timetables doc !! i = Some tt →
           (TimeWindow._speed w == 0)%Q →
           Forall (λ h, ∀ q, h ≠ Fin q) (Timetable.hopTimes tt))
  ∧ (∀ coords s,
       _geometry tp = Some coords → 2 ≤ length coords →
       _spacing tp = Some s → (0 < s)%Q →
       ∃ fuel doc, (make distance polyline_encode fuel tp).1 = Ret doc)
  ∧ (∀ coords,
       _geometry tp = Some coords → 2 ≤ length coords →
       (to_number (_spacing tp) <= 0)%Q →
       ((∃ j, 1 ≤ j < length coords
              ∧ (to_number (_spacing tp) / 1000
                 < geometry_length distance (take (S j) coords))%Q) →
        ∀ fuel, (make distance polyline_encode fuel tp).1 = Timeout)
       ∧ ((∀ j, 1 ≤ j < length coords →
             (geometry_length distance (take (S j) coords)
              <= to_number (_spacing tp) / 1000)%Q) →
          ∀ fuel, ∃ doc, (make distance polyline_encode fuel tp).1 = Ret doc))
  ∧ (∀ c0 c1 rest,
       _geometry tp = Some (c0 :: c1 :: rest) →
       (to_number (_spacing tp) <= 0)%Q → (0 < distance c0 c1)%Q →
       ∀ fuel, (make distance polyline_encode fuel tp).1 = Timeout).
Proof.
  split; [|split; [|split; [|split; [|split; [|split]]]]].
  - intros [Hgeom|Hgeom] fuel.
    + destruct (make_null_geometry distance polyline_encode tp fuel Hgeom)
        as [msg Hmsg].
      exists msg. by rewrite Hmsg.
    + destruct (make_empty distance polyline_encode tp fuel Hgeom) as [msg Hmsg].
      exists msg. by rewrite Hmsg.
  - intros c cs Hgeom fuel e.
    destruct (make_no_throw distance polyline_encode tp (c :: cs) Hgeom fuel)
      as [[doc Hdoc]|Hout]; [simpl; lia|by rewrite Hdoc|by rewrite Hout].
  - intros c Hgeom fuel.
    destruct (make_single_point distance polyline_encode tp fuel c Hgeom)
      as (doc & Hdoc & Hstops).
    exists doc. by rewrite Hdoc.
  - intros fuel doc Hdoc.
    destruct (make distance polyline_encode fuel tp) as [r tp'] eqn:Hmake.
    simpl in Hdoc. subst r.
    apply make_inv in Hmake as (l & _ & _ & _ & Htts).
    rewrite Htts, length_fmap. split; [done|].
    intros i w tt Hw Htt Hspeed.
    rewrite list_lookup_fmap, Hw in Htt. injection Htt as <-.
    by apply hop_times_not_finite.
  - intros coords s Hgeom Hlen Hs Hpos.
    destruct (make_returns distance polyline_encode tp coords s)
      as (fuel & doc & l & Hdoc & _); [done..|].
    exists fuel, doc. by rewrite Hdoc.
  - intros coords Hgeom Hlen Hs.
    destruct (make_nonpositive_spacing distance polyline_encode tp coords
                Hgeom Hlen) as [Hquiet Hloud].
    split.
    + intros Hex fuel. by rewrite (Hloud Hs Hex fuel).
    + intros Hall fuel. destruct (Hquiet Hall fuel) as [doc Hdoc].
      exists doc. by rewrite Hdoc.
  - intros c0 c1 rest Hgeom Hs Hd fuel.
    by rewrite (make_diverges distance polyline_encode tp c0 c1 rest fuel).
Qed.

(** C4: reversing twice and then finalizing is finalizing. *)
Theorem reverse_twice_make (tp : t) fuel :
  (reverse;; reverse;; make distance polyline_encode fuel) tp
  = make distance polyline_encode fuel tp.
Proof.
  assert (∀ tp', reverse tp' = (Ret This, set_reversed (negb (_reversed tp')) tp'))
    as Hrev by done.
  rewrite (bind_run _ _ _ _ _ (Hrev tp)), (bind_run _ _ _ _ _ (Hrev _)).
  destruct tp as [g sp ws n r]. unfold set_reversed. simpl.
  by rewrite negb_involutive.
Qed.

(** C5: [make] leaves the builder, with its time windows, as it found it,
    and a second call returns the document of the first. *)
Theorem make_leaves_builder (tp : t) fuel :
  (make distance polyline_encode fuel tp).2 = tp
  ∧ ∀ fuel' doc doc',
      (make distance polyline_encode fuel tp).1 = Ret doc →
      (make distance polyline_encode fuel'
         (make distance polyline_encode fuel tp).2).1 = Ret doc' →
      doc' = doc.
Proof.
  split; [apply readonly_make|].
  intros fuel' doc doc'. rewrite readonly_make.
  destruct (make distance polyline_encode fuel tp) as [r1 tp1] eqn:H1.
  destruct (make distance polyline_encode fuel' tp) as [r2 tp2] eqn:H2.
  simpl. intros -> ->.
  by destruct (mono_agree _ _ _ _ _ _ _ _
                 (mono_make distance polyline_encode) H2 H1).
Qed.

(** C9: after [name(s)], a call of [name()] returns [undefined], not [s],
    and leaves the builder alone; [s] is the [name] of every document that
    [make] then produces. *)
Theorem name_getter_undefined (tp : t) (s : string) :
  let tp' := (name (Some s) tp).2 in
  (name (Some s) tp).1 = Ret This
  ∧ name None tp' = (Ret (Got None), tp')
  ∧ _name tp' = s
  ∧ ∀ fuel doc,
      (make distance polyline_encode fuel tp').1 = Ret doc →
      AddTripPattern.name doc = s.
Proof.
  repeat split.
  intros fuel doc Hdoc.
  destruct (make distance polyline_encode fuel _) as [r tp''] eqn:Hmake.
  simpl in Hdoc. subst r.
  by apply make_inv in Hmake as (l & _ & -> & _).
Qed.

End builder_claims.

Lemma make_unchecked_inputs_witness :
  (∃ msg, (TripPattern.make taxicab_km encode_length 0 TripPattern.new).1
          = Throw (TypeError msg))
  ∧ (∃ msg, (TripPattern.make taxicab_km encode_length 0 empty_line).1
            = Throw (TypeError msg))
  ∧ (∀ e, (TripPattern.make taxicab_km encode_length 0 stalled_line).1 ≠ Throw e)
  ∧ (∃ doc, (TripPattern.make taxicab_km encode_length 0 single_point_line).1
            = Ret doc ∧ AddTripPattern.stops doc = [true])
  ∧ (∃ doc tt,
       (TripPattern.make taxicab_km encode_length 2 stalled_line).1 = Ret doc
       ∧ AddTripPattern.timetables doc !! 0 = Some tt
       ∧ Forall (λ h, ∀ q, h ≠ Fin q) (Timetable.hopTimes tt))
  ∧ (∃ fuel doc,
       (TripPattern.make taxicab_km encode_length fuel example_line).1 = Ret doc)
  ∧ (TripPattern.make taxicab_km encode_length 1000 zero_spacing_line).1 = Timeout
  ∧ (∃ doc,
       (TripPattern.make taxicab_km encode_length 0
          (TripPattern.set_geometry (Some [(0, 0); (0, 0)]%Q) zero_spacing_line)).1
       = Ret doc)
  ∧ (TripPattern.make taxicab_km encode_length 7 zero_spacing_line).1 = Timeout.
Proof.
  assert (2 ≤ length [(0, 0); (0, 1 # 100)]%Q) as Hlen by (simpl; lia).
  assert (2 ≤ length [(0, 0); (0, 0)]%Q) as Hlen' by (simpl; lia).
  assert (to_number (Some 0) <= 0)%Q as Hzero by discriminate.
  assert (0 < taxicab_km (0, 0) (0, 1 # 100))%Q as Hfar by (vm_compute; reflexivity).
  assert (∃ j, 1 ≤ j < 2
               ∧ (to_number (Some 0) / 1000
                  < geometry_length taxicab_km
                      (take (S j) [(0, 0); (0, 1 # 100)]))%Q) as Hloud.
  { exists 1. split; [lia|]. vm_compute. reflexivity. }
  assert (∀ j, 1 ≤ j < 2 →
            (geometry_length taxicab_km (take (S j) [(0, 0); (0, 0)])
             <= to_number (Some 0) / 1000)%Q) as Hquiet.
  { intros j Hj. assert (j = 1) as -> by lia. vm_compute. discriminate. }
  destruct (TripPattern.make taxicab_km encode_length 2 stalled_line).1
    as [doc| |] eqn:Hdoc; [|vm_compute in Hdoc; discriminate..].
  destruct (AddTripPattern.timetables doc !! 0) as [tt|] eqn:Htt;
    [|vm_compute in Hdoc; injection Hdoc as <-; discriminate].
  pose proof (make_unchecked_inputs taxicab_km encode_length) as H.
  split; [|split; [|split; [|split; [|split; [|split; [|split; [|split]]]]]]].
  - exact (proj1 (H TripPattern.new) (or_introl eq_refl) 0).
  - exact (proj1 (H empty_line) (or_intror eq_refl) 0).
  - exact (proj1 (proj2 (H stalled_line)) _ _ eq_refl 0).
  - exact (proj1 (proj2 (proj2 (H single_point_line))) _ eq_refl 0).
  - exists doc, tt. split; [reflexivity|]. split; [exact Htt|].
    exact (proj2 (proj1 (proj2 (proj2 (proj2 (H stalled_line)))) 2 doc Hdoc)
             0 _ tt eq_refl Htt (Qeq_refl 0)).
  - exact (proj1 (proj2 (proj2 (proj2 (proj2 (H example_line)))))
             _ 500%Q eq_refl Hlen eq_refl eq_refl).
  - exact (proj1 (proj1 (proj2 (proj2 (proj2 (proj2 (proj2 (H zero_spacing_line))))))
                    _ eq_refl Hlen Hzero) Hloud 1000).
  - exact (proj2 (proj1 (proj2 (proj2 (proj2 (proj2 (proj2
             (H (TripPattern.set_geometry (Some [(0, 0); (0, 0)]%Q)
                   zero_spacing_line)))))))
                    _ eq_refl Hlen' Hzero) Hquiet 0).
  - exact (proj2 (proj2 (proj2 (proj2 (proj2 (proj2 (H zero_spacing_line))))))
             _ _ _ eq_refl Hzero Hfar 7).
Defined.

(** C3 as stated fails: a geometry of one vertex is a degenerate input, and
    [make] returns a document for it. *)
Lemma make_accepts_single_point :
  degenerate single_point_line
  ∧ (TripPattern.make taxicab_km encode_length 0 single_point_line).1
    = Ret {|
        AddTripPattern.type := "add-trip-pattern";
        AddTripPattern.name := "Line 1";
        AddTripPattern.stops := [true];
        AddTripPattern.timetables := [ {|
          Timetable.startTime := 0;
          Timetable.endTime := 24 * 3600 - 1;
          Timetable.headwaySecs := 10 * 60;
          Timetable.frequency := true;
          Timetable.dwellTimes := [0; 0]%Q;
          Timetable.hopTimes :=
            [js_mul (js_div ((0 - (500 / 1000 - 500 / 1000)) * 1000 / 1000) 15)
               3600];
          Timetable.days := [true; true; true; true; true; true; true]
        |} ];
        AddTripPattern.geometry := "?"
      |}.
Proof.
  split.
  - right. left. exists [(0, 0)%Q]. split; [reflexivity|]. simpl. lia.
  - vm_compute. reflexivity.
Qed.

Lemma make_leaves_builder_witness :
  ∃ doc,
    (TripPattern.make taxicab_km encode_length 2 example_line).1 = Ret doc
    ∧ (TripPattern.make taxicab_km encode_length 7
         (TripPattern.make taxicab_km encode_length 2 example_line).2).1
      = Ret doc.
Proof.
  destruct (TripPattern.make taxicab_km encode_length 7
              (TripPattern.make taxicab_km encode_length 2 example_line).2).1
    as [doc'| |] eqn:H'; [|vm_compute in H'; discriminate..].
  destruct (TripPattern.make taxicab_km encode_length 2 example_line).1
    as [doc| |] eqn:H; [|vm_compute in H; discriminate..].
  exists doc.
  exact (conj eq_refl
           (f_equal Ret
              (proj2 (make_leaves_builder taxicab_km encode_length example_line 2)
                 7 doc doc' H H'))).
Defined.

Lemma name_getter_undefined_witness :
  ∃ doc,
    (TripPattern.make taxicab_km encode_length 2
       (TripPattern.name (Some "Rapid"%string) example_line).2).1 = Ret doc
    ∧ AddTripPattern.name doc = "Rapid"%string.
Proof.
  destruct (TripPattern.make taxicab_km encode_length 2
              (TripPattern.name (Some "Rapid"%string) example_line).2).1
    as [doc| |] eqn:H; [|vm_compute in H; discriminate..].
  exists doc.
  exact (conj eq_refl
           (proj2 (proj2 (proj2 (name_getter_undefined taxicab_km encode_length
                                   example_line "Rapid")))
              2 doc H)).
Defined.

(** ** The time setters of [TimeWindow] *)

(** C6, as the code has it: [startTime] throws exactly when the value is
    outside [0, 86400] and [endTime] exactly when it is outside [0, 172800];
    what is thrown is a string, not a RangeError, and the window is left as
    it was.  A value in range is stored, the call returns the window, and the
    call without argument that follows returns the value. *)
Theorem time_setters_range (w : TimeWindow.t) (v : Q) :
  ((v < 0 ∨ 86400 < v)%Q →
     TimeWindow.startTime (Some v) w
     = (Throw (ThrownString TimeWindow.startTime_message), w))
  ∧ ((0 <= v ∧ v <= 86400)%Q →
     TimeWindow.startTime (Some v) w = (Ret This, TimeWindow.set_start v w)
     ∧ TimeWindow.startTime None (TimeWindow.set_start v w)
       = (Ret (Got v), TimeWindow.set_start v w))
  ∧ ((v < 0 ∨ 172800 < v)%Q →
     TimeWindow.endTime (Some v) w
     = (Throw (ThrownString TimeWindow.endTime_message), w))
  ∧ ((0 <= v ∧ v <= 172800)%Q →
     TimeWindow.endTime (Some v) w = (Ret This, TimeWindow.set_end v w)
     ∧ TimeWindow.endTime None (TimeWindow.set_end v w)
       = (Ret (Got v), TimeWindow.set_end v w)).
Proof.
  unfold TimeWindow.startTime, TimeWindow.endTime.
  repeat split.
  - intros Hout.
    assert (js_lt v 0 || js_gt v (24 * 3600) = true) as ->; [|done].
    apply orb_true_iff. destruct Hout as [Hlo|Hhi].
    + left. by apply (js_gt_true 0 v).
    + right. apply js_gt_true. lra.
  - assert (js_lt v 0 || js_gt v (24 * 3600) = false) as ->; [|done].
    apply orb_false_iff. split.
    + apply (js_gt_false 0 v). lra.
    + apply js_gt_false. lra.
  - intros Hout.
    assert (js_lt v 0 || js_gt v (48 * 3600) = true) as ->; [|done].
    apply orb_true_iff. destruct Hout as [Hlo|Hhi].
    + left. by apply (js_gt_true 0 v).
    + right. apply js_gt_true. lra.
  - assert (js_lt v 0 || js_gt v (48 * 3600) = false) as ->; [|done].
    apply orb_false_iff. split.
    + apply (js_gt_false 0 v). lra.
    + apply js_gt_false. lra.
Qed.

Lemma time_setters_range_witness :
  TimeWindow.startTime (Some 90000%Q) TimeWindow.new
  = (Throw (ThrownString TimeWindow.startTime_message), TimeWindow.new)
  ∧ TimeWindow.startTime (Some 43200%Q) TimeWindow.new
    = (Ret This, TimeWindow.set_start 43200 TimeWindow.new)
  ∧ TimeWindow.startTime None (TimeWindow.set_start 43200 TimeWindow.new)
    = (Ret (Got 43200%Q), TimeWindow.set_start 43200 TimeWindow.new)
  ∧ TimeWindow.endTime (Some 180000%Q) TimeWindow.new
    = (Throw (ThrownString TimeWindow.endTime_message), TimeWindow.new)
  ∧ TimeWindow.endTime (Some 90000%Q) TimeWindow.new
    = (Ret This, TimeWindow.set_end 90000 TimeWindow.new).
Proof.
  assert (90000 < 0 ∨ 86400 < 90000)%Q as H1 by (right; reflexivity).
  assert (0 <= 43200 ∧ 43200 <= 86400)%Q as H2 by (split; discriminate).
  assert (180000 < 0 ∨ 172800 < 180000)%Q as H3 by (right; reflexivity).
  assert (0 <= 90000 ∧ 90000 <= 172800)%Q as H4 by (split; discriminate).
  split; [|split; [|split; [|split]]].
  - exact (proj1 (time_setters_range TimeWindow.new 90000) H1).
  - exact (proj1 (proj1 (proj2 (time_setters_range TimeWindow.new 43200)) H2)).
  - exact (proj2 (proj1 (proj2 (time_setters_range TimeWindow.new 43200)) H2)).
  - exact (proj1 (proj2 (proj2 (time_setters_range TimeWindow.new 180000))) H3).
  - exact (proj1 (proj2 (proj2 (proj2 (time_setters_range TimeWindow.new 90000))) H4)).
Defined.

(** C6 as stated fails: setting [startTime] to 90000 throws, but the value
    thrown is a string; no RangeError is raised. *)
Lemma startTime_throws_string :
  (TimeWindow.startTime (Some 90000%Q) TimeWindow.new).1
  = Throw (ThrownString
      "Start time must be between zero and 24 * 3600. It is expressed in seconds since GTFS midnight.")
  ∧ ¬ ∃ msg,
      (TimeWindow.startTime (Some 90000%Q) TimeWindow.new).1
      = Throw (RangeError msg).
Proof.
  split; [vm_compute; reflexivity|].
  intros [msg Hmsg]. vm_compute in Hmsg. discriminate.
Qed.

(** ** The flat builders *)

(** C8: a fresh RemoveTrip emits [null] for [routeId], [tripId] and
    [routeType]; a fresh ConvertToFrequency emits the empty list for
    [routeId]. *)
Theorem fresh_filters_null_vs_empty :
  (∃ doc, RemoveTrip.make RemoveTrip.new = (Ret doc, RemoveTrip.new)
     ∧ RemoveTripDocument.routeId doc = None
     ∧ RemoveTripDocument.tripId doc = None
     ∧ RemoveTripDocument.routeType doc = None)
  ∧ (∃ doc,
       ConvertToFrequency.make ConvertToFrequency.new
       = (Ret doc, ConvertToFrequency.new)
       ∧ ConvertToFrequencyDocument.routeId doc = []).
Proof. split; by eexists. Qed.

(** C10: a fresh AdjustHeadway emits the document with type
    adjust-headway, [null] for the four filters and 600 for [headway]. *)
Theorem AdjustHeadway_fresh_make :
  AdjustHeadway.make AdjustHeadway.new
  = (Ret {|
       AdjustHeadwayDocument.type := "adjust-headway";
       AdjustHeadwayDocument.agencyId := None;
       AdjustHeadwayDocument.routeId := None;
       AdjustHeadwayDocument.tripId := None;
       AdjustHeadwayDocument.routeType := None;
       AdjustHeadwayDocument.headway := 600
     |}, AdjustHeadway.new).
Proof. reflexivity. Qed.

(** ** Further properties of [TimeWindow] *)

(** X1: [weekday(b)] sets the five weekday flags, so that [weekday()] then
    returns [b]; it leaves the weekend reading, the times, the headway, the
    dwell and the speed as they were.  [weekend(b)] does the same for the two
    weekend flags and leaves the weekday reading alone. *)
Theorem weekday_weekend_round_trip (w : TimeWindow.t) (b : bool) :
  (∃ w', TimeWindow.weekday (Some b) w = (Ret This, w')
     ∧ TimeWindow.weekday None w' = (Ret (Got b), w')
     ∧ (TimeWindow.weekend None w').1 = (TimeWindow.weekend None w).1
     ∧ TimeWindow._start w' = TimeWindow._start w
     ∧ TimeWindow._end w' = TimeWindow._end w
     ∧ TimeWindow._headway w' = TimeWindow._headway w
     ∧ TimeWindow._dwell w' = TimeWindow._dwell w
     ∧ TimeWindow._speed w' = TimeWindow._speed w)
  ∧ (∃ w', TimeWindow.weekend (Some b) w = (Ret This, w')
     ∧ TimeWindow.weekend None w' = (Ret (Got b), w')
     ∧ (TimeWindow.weekday None w').1 = (TimeWindow.weekday None w).1
     ∧ TimeWindow._start w' = TimeWindow._start w
     ∧ TimeWindow._end w' = TimeWindow._end w
     ∧ TimeWindow._headway w' = TimeWindow._headway w
     ∧ TimeWindow._dwell w' = TimeWindow._dwell w
     ∧ TimeWindow._speed w' = TimeWindow._speed w).
Proof.
  split; (eexists; split; [reflexivity|]); by destruct b.
Qed.

(** X2: switching any single weekday off makes [weekday()] return
    [false], and switching Saturday or Sunday off makes [weekend()] return
    [false], whatever the other flags are. *)
Theorem one_day_off_reads_false (w : TimeWindow.t) :
  Forall (λ day : option bool → M TimeWindow.t (fluent bool),
            (TimeWindow.weekday None (day (Some false) w).2).1 = Ret (Got false))
    [TimeWindow.monday; TimeWindow.tuesday; TimeWindow.wednesday;
     TimeWindow.thursday; TimeWindow.friday]
  ∧ Forall (λ day : option bool → M TimeWindow.t (fluent bool),
            (TimeWindow.weekend None (day (Some false) w).2).1 = Ret (Got false))
    [TimeWindow.saturday; TimeWindow.sunday].
Proof.
  destruct w as [[] [] [] [] [] [] [] start stop hw dw sp];
    split; repeat constructor.
Qed.

Lemma after_call_times (w : TimeWindow.t) (c : window_call) :
  times_in_range w → times_in_range (after_call w c).
Proof.
  intros Hw. destruct c as [v|v|v|v|v|v|v|v|v|v|v|v|v|v]; destruct v as [v|];
    try exact Hw.
  - (* startTime *)
    simpl. unfold TimeWindow.startTime.
    destruct (js_lt v 0 || js_gt v (24 * 3600)) eqn:Hv; [exact Hw|].
    apply orb_false_iff in Hv as [Hlo Hhi].
    apply (js_gt_false 0 v) in Hlo. apply js_gt_false in Hhi.
    destruct Hw as [_ Hend]. split; [|exact Hend]. simpl. lra.
  - (* endTime *)
    simpl. unfold TimeWindow.endTime.
    destruct (js_lt v 0 || js_gt v (48 * 3600)) eqn:Hv; [exact Hw|].
    apply orb_false_iff in Hv as [Hlo Hhi].
    apply (js_gt_false 0 v) in Hlo. apply js_gt_false in Hhi.
    destruct Hw as [Hstart _]. split; [exact Hstart|]. simpl. lra.
Qed.

(** X3: whatever methods are called on a new [TimeWindow], each with a
    real number (a boolean for the days) or with no argument, and whether or
    not the calls throw, the stored start time stays within [0, 86400] and
    the stored end time within [0, 172800].  The arguments of [window_call]
    are rationals: [NaN], which both range tests of the source let through
    and which is then stored, and values that are not numbers are not among
    them. *)
Theorem window_times_stay_in_range (calls : list window_call) :
  times_in_range (foldl after_call TimeWindow.new calls).
Proof.
  assert (times_in_range TimeWindow.new) as Hnew.
  { repeat split; simpl; lra. }
  revert Hnew. generalize TimeWindow.new.
  induction calls as [|c calls IH]; intros w Hw; [exact Hw|].
  simpl. apply IH. by apply after_call_times.
Qed.

(** ** Further properties of the flat builders *)

Lemma mapM_cons_run {S A B} (f : A → M S B) x xs (s s1 s2 : S) y ys :
  f x s = (Ret y, s1) → mapM f xs s1 = (Ret ys, s2) →
  mapM f (x :: xs) s = (Ret (y :: ys), s2).
Proof.
  intros Hx Hxs. simpl.
  by rewrite (bind_run _ _ _ _ _ Hx), (bind_run _ _ _ _ _ Hxs).
Qed.

Lemma extended_cons {A} (old : option (list A)) x xs :
  extended (Some (default [] old ++ [x])) xs = extended old (x :: xs).
Proof. destruct xs; simpl; by rewrite <- ?app_assoc. Qed.

Lemma RemoveTrip_call_run (r : RemoveTrip.t) (c : filter_call) :
  RemoveTrip_call c r
  = (Ret This,
     match c with
     | AddRoute x =>
         RemoveTrip.set_routeId (Some (default [] (RemoveTrip._routeId r) ++ [x])) r
     | AddTrip x =>
         RemoveTrip.set_tripId (Some (default [] (RemoveTrip._tripId r) ++ [x])) r
     | AddType x =>
         RemoveTrip.set_routeType (Some (default [] (RemoveTrip._routeType r) ++ [x])) r
     end).
Proof. destruct r as [ag [ro|] [tr|] [ty|]], c; reflexivity. Qed.

Lemma AdjustHeadway_call_run (r : AdjustHeadway.t) (c : filter_call) :
  AdjustHeadway_call c r
  = (Ret This,
     match c with
     | AddRoute x =>
         AdjustHeadway.set_routeId
           (Some (default [] (AdjustHeadway._routeId r) ++ [x])) r
     | AddTrip x =>
         AdjustHeadway.set_tripId
           (Some (default [] (AdjustHeadway._tripId r) ++ [x])) r
     | AddType x =>
         AdjustHeadway.set_routeType
           (Some (default [] (AdjustHeadway._routeType r) ++ [x])) r
     end).
Proof. destruct r as [ag [ro|] [tr|] [ty|] hw], c; reflexivity. Qed.

(** The builder after a sequence of [add] calls. *)
Lemma RemoveTrip_calls_state (r : RemoveTrip.t) (calls : list filter_call) :
  ∃ res,
    mapM RemoveTrip_call calls r
    = (Ret res, {|
         RemoveTrip._agencyId := RemoveTrip._agencyId r;
         RemoveTrip._routeId := extended (RemoveTrip._routeId r) (routes_of calls);
         RemoveTrip._tripId := extended (RemoveTrip._tripId r) (trips_of calls);
         RemoveTrip._routeType :=
           extended (RemoveTrip._routeType r) (types_of calls)
       |}).
Proof.
  revert r. induction calls as [|c calls IH]; intros r.
  - exists []. by destruct r.
  - destruct (IH (RemoveTrip_call c r).2) as [res Hres].
    exists (This :: res). simpl.
    rewrite (bind_run _ _ _ _ _ (RemoveTrip_call_run r c)).
    rewrite RemoveTrip_call_run in Hres. simpl in Hres.
    rewrite (bind_run _ _ _ _ _ Hres). simpl.
    destruct c as [x|x|x]; simpl; by rewrite extended_cons.
Qed.

(** X4: after any sequence of [addRoute], [addTrip] and [addType] calls
    on a [RemoveTrip], [make] emits for each of the three filters the values
    added to it, in call order, after the ones it held before; a filter to
    which nothing was added is emitted as it was ([null] if it was [null]),
    and the agency is untouched.  How calls for different filters are
    interleaved makes no difference. *)
Theorem RemoveTrip_filters_accumulate (r : RemoveTrip.t) (calls : list filter_call) :
  ∃ res r',
    mapM RemoveTrip_call calls r = (Ret res, r')
    ∧ RemoveTrip.make r' = (Ret {|
        RemoveTripDocument.type := "remove-trip";
        RemoveTripDocument.agencyId := RemoveTrip._agencyId r;
        RemoveTripDocument.routeId :=
          extended (RemoveTrip._routeId r) (routes_of calls);
        RemoveTripDocument.tripId :=
          extended (RemoveTrip._tripId r) (trips_of calls);
        RemoveTripDocument.routeType :=
          extended (RemoveTrip._routeType r) (types_of calls)
      |}, r').
Proof.
  destruct (RemoveTrip_calls_state r calls) as [res Hres].
  eexists res, _. split; [exact Hres|reflexivity].
Qed.

(** X5: the same for [AdjustHeadway]; the headway is untouched by the
    three [add] methods. *)
Theorem AdjustHeadway_filters_accumulate
    (r : AdjustHeadway.t) (calls : list filter_call) :
  ∃ res r',
    mapM AdjustHeadway_call calls r = (Ret res, r')
    ∧ AdjustHeadway.make r' = (Ret {|
        AdjustHeadwayDocument.type := "adjust-headway";
        AdjustHeadwayDocument.agencyId := AdjustHeadway._agencyId r;
        AdjustHeadwayDocument.routeId :=
          extended (AdjustHeadway._routeId r) (routes_of calls);
        AdjustHeadwayDocument.tripId :=
          extended (AdjustHeadway._tripId r) (trips_of calls);
        AdjustHeadwayDocument.routeType :=
          extended (AdjustHeadway._routeType r) (types_of calls);
        AdjustHeadwayDocument.headway := AdjustHeadway._headway r
      |}, r').
Proof.
  revert r. induction calls as [|c calls IH]; intros r.
  - by eexists _, r.
  - assert (∃ r1, AdjustHeadway_call c r = (Ret This, r1)
        ∧ AdjustHeadway._agencyId r1 = AdjustHeadway._agencyId r
        ∧ AdjustHeadway._headway r1 = AdjustHeadway._headway r
        ∧ extended (AdjustHeadway._routeId r1) (routes_of calls)
          = extended (AdjustHeadway._routeId r) (routes_of (c :: calls))
        ∧ extended (AdjustHeadway._tripId r1) (trips_of calls)
          = extended (AdjustHeadway._tripId r) (trips_of (c :: calls))
        ∧ extended (AdjustHeadway._routeType r1) (types_of calls)
          = extended (AdjustHeadway._routeType r) (types_of (c :: calls)))
      as (r1 & Hc & Hag & Hhw & Hro & Htr & Hty).
    { eexists. split; [apply AdjustHeadway_call_run|].
      destruct c as [x|x|x]; simpl; repeat split; apply extended_cons. }
    destruct (IH r1) as (res & r' & Hrun & Hmake).
    exists (This :: res), r'. split.
    + simpl. rewrite (bind_run _ _ _ _ _ Hc), (bind_run _ _ _ _ _ Hrun). done.
    + by rewrite Hmake, Hag, Hhw, Hro, Htr, Hty.
Qed.

(** X6: after [addRoute] has been called on a [ConvertToFrequency] for
    each of [routes] in turn, [make] emits the routes held before followed by
    [routes] in call order, and the window and the grouping as they were. *)
Theorem ConvertToFrequency_routes_accumulate
    (c : ConvertToFrequency.t) (routes : list string) :
  ∃ res c',
    mapM ConvertToFrequency.addRoute routes c = (Ret res, c')
    ∧ ConvertToFrequency.make c' = (Ret {|
        ConvertToFrequencyDocument.type := "convert-to-frequency";
        ConvertToFrequencyDocument.windowStart := ConvertToFrequency._windowStart c;
        ConvertToFrequencyDocument.windowEnd := ConvertToFrequency._windowEnd c;
        ConvertToFrequencyDocument.groupBy := ConvertToFrequency._groupBy c;
        ConvertToFrequencyDocument.routeId :=
          ConvertToFrequency._routeId c ++ routes
      |}, c').
Proof.
  revert c. induction routes as [|x routes IH]; intros c.
  - eexists _, c. split; [done|]. destruct c. simpl. by rewrite app_nil_r.
  - destruct (IH (ConvertToFrequency.set_routeId
                    (ConvertToFrequency._routeId c ++ [x]) c))
      as (res & c' & Hrun & Hmake).
    exists (This :: res), c'. split.
    + simpl.
      rewrite (bind_run _ _ c This
                 (ConvertToFrequency.set_routeId
                    (ConvertToFrequency._routeId c ++ [x]) c)) by done.
      by rewrite (bind_run _ _ _ _ _ Hrun).
    + rewrite Hmake. simpl. by rewrite <- app_assoc.
Qed.

(** ** Further properties of [TripPattern.make]: errors and timetables *)

Section make_timetables.
Import TripPattern.
Variable distance : coord → coord → Q.
Variable polyline_encode : list coord → string.

(** X7: as long as no geometry has been set, [make] raises a TypeError,
    whatever the other fields hold; the builder is left as it was. *)
Theorem make_without_geometry (tp : t) fuel :
  _geometry tp = None →
  ∃ msg, make distance polyline_encode fuel tp = (Throw (TypeError msg), tp).
Proof.
  intros Hgeom. eexists. unfold make, discretize.
  unfold mbind at 1, M_bind at 1.
  rewrite (bind_run spacing_km _ tp _ tp eq_refl).
  unfold mbind at 1, M_bind at 1.
  unfold coordinate, coordinates.
  unfold mbind at 1, M_bind at 1.
  rewrite (bind_run (gets _geometry) _ tp _ tp eq_refl).
  rewrite Hgeom. reflexivity.
Qed.

(** X8: a document has one timetable per time window, in the order in
    which the windows were added; the timetable of a window carries its
    start time, end time and headway, is marked as a frequency, has the
    window's dwell time in every entry of [dwellTimes], and lists the seven
    day flags from Monday to Sunday. *)
Theorem make_timetables_follow_windows (tp : t) fuel doc :
  (make distance polyline_encode fuel tp).1 = Ret doc →
  length (AddTripPattern.timetables doc) = length (_windows tp)
  ∧ ∀ i w, _windows tp !! i = Some w →
      ∃ tt, AddTripPattern.timetables doc !! i = Some tt
        ∧ Timetable.startTime tt = TimeWindow._start w
        ∧ Timetable.endTime tt = TimeWindow._end w
        ∧ Timetable.headwaySecs tt = TimeWindow._headway w
        ∧ Timetable.frequency tt = true
        ∧ Forall (λ d, d = TimeWindow._dwell w) (Timetable.dwellTimes tt)
        ∧ Timetable.days tt
          = [TimeWindow._mon w; TimeWindow._tue w; TimeWindow._wed w;
             TimeWindow._thurs w; TimeWindow._fri w; TimeWindow._sat w;
             TimeWindow._sun w].
Proof.
  intros Hdoc.
  destruct (make distance polyline_encode fuel tp) as [r tp'] eqn:Hmake.
  simpl in Hdoc. subst r.
  apply make_inv in Hmake as (l & _ & _ & _ & ->).
  split; [by rewrite length_fmap|].
  intros i w Hw. exists (timetable_of l w).
  rewrite list_lookup_fmap, Hw. repeat split.
  simpl. apply Forall_replicate. done.
Qed.



(** X18: for a geometry of a single coordinate [make] returns a document
    that does not add up: [stops] has its one entry, yet every timetable has
    two dwell times and one hop time. *)
Theorem make_single_point_counts (tp : t) c fuel :
  _geometry tp = Some [c] →
  ∃ doc, (make distance polyline_encode fuel tp).1 = Ret doc
    ∧ AddTripPattern.stops doc = [true]
    ∧ length (AddTripPattern.timetables doc) = length (_windows tp)
    ∧ Forall (λ tt, length (Timetable.dwellTimes tt) = 2
                    ∧ length (Timetable.hopTimes tt) = 1)
        (AddTripPattern.timetables doc).
Proof.
  intros Hgeom.
  destruct (discretize_short distance tp fuel [c] Hgeom)
    as (l & Hl & Hstops & Hgeo & HnStops & Hhops); [simpl; lia|].
  destruct (make_run distance polyline_encode tp fuel l Hl)
    as (doc & Hdoc & _ & _ & Hs & Htts).
  { rewrite Hgeo. by repeat constructor. }
  exists doc. rewrite Hdoc, Hs, Htts. split; [done|]. split; [done|].
  split; [by rewrite length_fmap|].
  apply Forall_fmap, Forall_true. intros w. simpl.
  by rewrite length_replicate, length_fmap.
Qed.

End make_timetables.

Lemma make_without_geometry_witness :
  ∃ msg, TripPattern.make taxicab_km encode_length 0 TripPattern.new
         = (Throw (TypeError msg), TripPattern.new).
Proof.
  exact (make_without_geometry taxicab_km encode_length TripPattern.new 0 eq_refl).
Defined.

Lemma make_timetables_follow_windows_witness :
  ∃ doc tt,
    (TripPattern.make taxicab_km encode_length 2 example_line).1 = Ret doc
    ∧ AddTripPattern.timetables doc !! 0 = Some tt
    ∧ Timetable.headwaySecs tt = (10 * 60)%Q
    ∧ Timetable.days tt = [true; true; true; true; true; true; true].
Proof.
  destruct (TripPattern.make taxicab_km encode_length 2 example_line).1
    as [doc| |] eqn:Hdoc; [|vm_compute in Hdoc; discriminate..].
  destruct (proj2 (make_timetables_follow_windows taxicab_km encode_length
                     example_line 2 doc Hdoc) 0 TimeWindow.new eq_refl)
    as (tt & Htt & _ & _ & Hhw & _ & _ & Hdays).
  exists doc, tt. exact (conj eq_refl (conj Htt (conj Hhw Hdays))).
Defined.


Lemma make_single_point_counts_witness :
  ∃ doc, (TripPattern.make taxicab_km encode_length 0 single_point_line).1 = Ret doc
    ∧ AddTripPattern.stops doc = [true]
    ∧ Forall (λ tt, length (Timetable.dwellTimes tt) = 2
                    ∧ length (Timetable.hopTimes tt) = 1)
        (AddTripPattern.timetables doc).
Proof.
  destruct (make_single_point_counts taxicab_km encode_length single_point_line
              (0, 0)%Q 0 eq_refl) as (doc & Hdoc & Hstops & _ & Htts).
  exists doc. exact (conj Hdoc (conj Hstops Htts)).
Defined.

(** ** How [make] composes with the other methods of [TripPattern] *)

Lemma bind_inv_readonly {S A B} (m : M S A) (k : A → M S B) s b s'' :
  readonly m → (m ≫= k) s = (Ret b, s'') →
  ∃ a, m s = (Ret a, s) ∧ k a s = (Ret b, s'').
Proof.
  intros Hm H. apply bind_inv in H as (a & s' & Ha & Hb).
  pose proof (Hm s) as Hs. rewrite Ha in Hs. simpl in Hs. subst s'.
  by exists a.
Qed.

Section make_composes.
Import TripPattern.
Variable distance : coord → coord → Q.
Variable polyline_encode : list coord → string.

(** The discretization reads the geometry, the spacing and the direction,
    and nothing else. *)
Section same_line.
Variables tp1 tp2 : t.
Hypothesis Hgeom : _geometry tp1 = _geometry tp2.
Hypothesis Hspacing : _spacing tp1 = _spacing tp2.

Lemma coordinate_agree i c tp' :
  coordinate i tp1 = (Ret c, tp') → coordinate i tp2 = (Ret c, tp2).
Proof.
  destruct (_geometry tp1) as [coords|] eqn:Hg.
  - rewrite (coordinate_run _ _ Hg). symmetry in Hgeom.
    rewrite (coordinate_run _ _ Hgeom). by intros [= <- _].
  - unfold coordinate, coordinates, mbind, M_bind, gets. by rewrite Hg.
Qed.

Lemma length_agree n tp' :
  (length <$> coordinates) tp1 = (Ret n, tp') →
  (length <$> coordinates) tp2 = (Ret n, tp2).
Proof.
  destruct (_geometry tp1) as [coords|] eqn:Hg.
  - rewrite (length_run _ _ Hg). symmetry in Hgeom.
    rewrite (length_run _ _ Hgeom). by intros [= <- _].
  - unfold fmap, M_fmap, coordinates, mbind, M_bind, gets. by rewrite Hg.
Qed.

Lemma point_agree i p tp' :
  (coordinate i ≫= defined) tp1 = (Ret p, tp') →
  (coordinate i ≫= defined) tp2 = (Ret p, tp2).
Proof.
  intros H. apply bind_inv_readonly in H as (c & Hc & Hp);
    [|apply readonly_coordinate].
  rewrite (bind_run _ _ _ _ _ (coordinate_agree _ _ _ Hc)).
  destruct c as [c|]; [|done]. by injection Hp as <- _.
Qed.

Lemma spacing_km_agree : spacing_km tp2 = ((spacing_km tp1).1, tp2).
Proof. unfold spacing_km, mbind, M_bind, gets. simpl. by rewrite Hspacing. Qed.

Lemma insert_stops_agree fuel i segLen :
  ∀ l l' tp', insert_stops fuel i segLen l tp1 = (Ret l', tp') →
    insert_stops fuel i segLen l tp2 = (Ret l', tp2).
Proof.
  induction fuel as [|fuel IH]; intros l l' tp'; simpl;
    destruct (js_gt (accumulator l) (nextStop l)); try done.
  - by intros [= <- _].
  - intros H.
    apply bind_inv_readonly in H as (p1 & H1 & H);
      [|apply readonly_bind; [apply readonly_coordinate|apply readonly_defined]].
    apply bind_inv_readonly in H as (p2 & H2 & H);
      [|apply readonly_bind; [apply readonly_coordinate|apply readonly_defined]].
    rewrite (bind_run _ _ _ _ _ (point_agree _ _ _ H1)).
    rewrite (bind_run _ _ _ _ _ (point_agree _ _ _ H2)).
    destruct p1 as [x1 y1], p2 as [x2 y2].
    rewrite (bind_run (gets _spacing) _ tp1 _ tp1 eq_refl) in H.
    rewrite (bind_run spacing_km _ tp1 _ tp1 eq_refl) in H.
    rewrite (bind_run (gets _spacing) _ tp2 _ tp2 eq_refl).
    rewrite (bind_run spacing_km _ tp2 _ tp2 eq_refl).
    rewrite <- Hspacing. by apply IH in H.
  - by intros [= <- _].
Qed.

Lemma segment_agree fuel i l l' tp' :
  segment distance fuel i l tp1 = (Ret l', tp') →
  segment distance fuel i l tp2 = (Ret l', tp2).
Proof.
  unfold segment. intros H.
  apply bind_inv_readonly in H as (p1 & H1 & H);
    [|apply readonly_bind; [apply readonly_coordinate|apply readonly_defined]].
  apply bind_inv_readonly in H as (p2 & H2 & H);
    [|apply readonly_bind; [apply readonly_coordinate|apply readonly_defined]].
  apply bind_inv_readonly in H as (l1 & Hl1 & H); [|apply readonly_insert_stops].
  apply bind_inv_readonly in H as (c & Hc & H); [|apply readonly_coordinate].
  apply bind_inv_readonly in H as (n & Hn & H);
    [|apply readonly_fmap, readonly_coordinates].
  rewrite (bind_run _ _ _ _ _ (point_agree _ _ _ H1)).
  rewrite (bind_run _ _ _ _ _ (point_agree _ _ _ H2)).
  rewrite (bind_run _ _ _ _ _ (insert_stops_agree _ _ _ _ _ _ Hl1)).
  rewrite (bind_run _ _ _ _ _ (coordinate_agree _ _ _ Hc)).
  rewrite (bind_run _ _ _ _ _ (length_agree _ _ Hn)).
  by injection H as <- _.
Qed.

Lemma segments_agree fuel ids :
  ∀ l l' tp', for_each (segment distance fuel) ids l tp1 = (Ret l', tp') →
    for_each (segment distance fuel) ids l tp2 = (Ret l', tp2).
Proof.
  induction ids as [|i ids IH]; intros l l' tp'; simpl.
  - by intros [= <- _].
  - intros H.
    apply bind_inv_readonly in H as (l1 & Hl1 & H); [|apply readonly_segment].
    rewrite (bind_run _ _ _ _ _ (segment_agree _ _ _ _ _ Hl1)). by apply IH in H.
Qed.

(** With the same direction, the same discretization. *)
Lemma discretize_agree fuel l tp' :
  _reversed tp1 = _reversed tp2 →
  discretize distance fuel tp1 = (Ret l, tp') →
  discretize distance fuel tp2 = (Ret l, tp2).
Proof.
  intros Hrev. unfold discretize.
  rewrite (bind_run spacing_km _ tp1 _ tp1 eq_refl).
  rewrite (bind_run spacing_km _ tp2 _ tp2 eq_refl).
  intros H.
  apply bind_inv_readonly in H as (c0 & Hc0 & H); [|apply readonly_coordinate].
  apply bind_inv_readonly in H as (n & Hn & H);
    [|apply readonly_fmap, readonly_coordinates].
  apply bind_inv_readonly in H as (l0 & Hl0 & H);
    [|apply readonly_for_each; intros; apply readonly_segment].
  rewrite (bind_run spacing_km _ tp1 _ tp1 eq_refl) in H.
  rewrite (bind_run (gets _reversed) _ tp1 _ tp1 eq_refl) in H.
  rewrite (bind_run _ _ _ _ _ (coordinate_agree _ _ _ Hc0)).
  rewrite (bind_run _ _ _ _ _ (length_agree _ _ Hn)).
  simpl in Hl0 |- *. rewrite <- Hspacing.
  rewrite (bind_run _ _ _ _ _ (segments_agree _ _ _ _ _ Hl0)).
  rewrite (bind_run spacing_km _ tp2 _ tp2 eq_refl).
  rewrite (bind_run (gets _reversed) _ tp2 _ tp2 eq_refl).
  rewrite <- Hrev, <- Hspacing.
  destruct (_reversed tp1); by injection H as <- _.
Qed.

(** With the opposite direction, the mirrored discretization. *)
Lemma discretize_mirror fuel l tp' :
  _reversed tp2 = negb (_reversed tp1) →
  discretize distance fuel tp1 = (Ret l, tp') →
  discretize distance fuel tp2 = (Ret (mirror l), tp2).
Proof.
  intros Hrev. unfold discretize.
  rewrite (bind_run spacing_km _ tp1 _ tp1 eq_refl).
  rewrite (bind_run spacing_km _ tp2 _ tp2 eq_refl).
  intros H.
  apply bind_inv_readonly in H as (c0 & Hc0 & H); [|apply readonly_coordinate].
  apply bind_inv_readonly in H as (n & Hn & H);
    [|apply readonly_fmap, readonly_coordinates].
  apply bind_inv_readonly in H as (l0 & Hl0 & H);
    [|apply readonly_for_each; intros; apply readonly_segment].
  rewrite (bind_run spacing_km _ tp1 _ tp1 eq_refl) in H.
  rewrite (bind_run (gets _reversed) _ tp1 _ tp1 eq_refl) in H.
  rewrite (bind_run _ _ _ _ _ (coordinate_agree _ _ _ Hc0)).
  rewrite (bind_run _ _ _ _ _ (length_agree _ _ Hn)).
  simpl in Hl0 |- *. rewrite <- Hspacing.
  rewrite (bind_run _ _ _ _ _ (segments_agree _ _ _ _ _ Hl0)).
  rewrite (bind_run spacing_km _ tp2 _ tp2 eq_refl).
  rewrite (bind_run (gets _reversed) _ tp2 _ tp2 eq_refl).
  rewrite Hrev, <- Hspacing.
  destruct (_reversed tp1); injection H as <- _; unfold mirror; simpl;
    by rewrite ?reverse_involutive.
Qed.

End same_line.

Lemma lat_lon_inv cs : ∀ ps (tp tp' : t),
  mapM lat_lon cs tp = (Ret ps, tp') → cs = (λ p, Some (p.2, p.1)) <$> ps.
Proof.
  induction cs as [|c cs IH]; intros ps tp tp'; simpl.
  - by intros [= <- _].
  - intros H.
    apply bind_inv_readonly in H as (p & Hp & H); [|apply readonly_lat_lon].
    apply bind_inv_readonly in H as (ps' & Hps' & H);
      [|apply readonly_mapM, readonly_lat_lon].
    injection H as <- _. rewrite fmap_cons. f_equal; [|by eapply IH].
    destruct c as [[x y]|]; [|done]. by injection Hp as <-.
Qed.

Lemma lat_lon_swapped ps (tp : t) :
  mapM lat_lon ((λ p, Some (p.2, p.1)) <$> ps) tp = (Ret ps, tp).
Proof.
  induction ps as [|[lat lon] ps IH]; [done|]. simpl.
  rewrite (bind_run _ _ tp (lat, lon) tp) by done.
  by rewrite (bind_run _ _ _ _ _ IH).
Qed.

(** The whole document, with the coordinates handed to the encoder. *)
Lemma make_inv_full (tp : t) fuel doc tp' :
  make distance polyline_encode fuel tp = (Ret doc, tp') →
  ∃ l ps, discretize distance fuel tp = (Ret l, tp)
    ∧ newGeometry l = (λ p, Some (p.2, p.1)) <$> ps
    ∧ doc = {|
        AddTripPattern.type := "add-trip-pattern";
        AddTripPattern.name := _name tp;
        AddTripPattern.stops := stopIndices l;
        AddTripPattern.timetables := timetable_of l <$> _windows tp;
        AddTripPattern.geometry := polyline_encode ps
      |}.
Proof.
  intros H. unfold make in H.
  apply bind_inv_readonly in H as (l & Hl & H); [|apply readonly_discretize].
  rewrite (bind_run (gets _) _ tp _ tp eq_refl) in H.
  rewrite (bind_run _ _ _ _ _ (timetables_run tp l _ 0 [] eq_refl)) in H.
  rewrite (bind_run (gets _) _ tp _ tp eq_refl) in H.
  apply bind_inv in H as (ps & tp'' & Hps & H).
  exists l, ps. split; [done|]. split; [by apply lat_lon_inv in Hps|].
  injection H as <- _. simpl. by rewrite drop_0.
Qed.

Lemma make_run_full (tp : t) fuel l ps :
  discretize distance fuel tp = (Ret l, tp) →
  newGeometry l = (λ p, Some (p.2, p.1)) <$> ps →
  make distance polyline_encode fuel tp
  = (Ret {|
       AddTripPattern.type := "add-trip-pattern";
       AddTripPattern.name := _name tp;
       AddTripPattern.stops := stopIndices l;
       AddTripPattern.timetables := timetable_of l <$> _windows tp;
       AddTripPattern.geometry := polyline_encode ps
     |}, tp).
Proof.
  intros Hl Hps. unfold make.
  rewrite (bind_run _ _ _ _ _ Hl).
  rewrite (bind_run (gets _) _ tp _ tp eq_refl).
  rewrite (bind_run _ _ _ _ _ (timetables_run tp l _ 0 [] eq_refl)).
  rewrite (bind_run (gets _) _ tp _ tp eq_refl).
  rewrite Hps, (bind_run _ _ _ _ _ (lat_lon_swapped ps tp)).
  simpl. by rewrite drop_0.
Qed.

(** X10: if [make] returns a document, then [make] after [reverse] returns
    the document of the same line run the other way: the stop markers, the
    hop times of every timetable and the coordinates handed to the encoder
    are those of the first document in the opposite order; the name, and the
    start time, end time, headway, dwell times and days of every timetable
    are the same. *)
Theorem reverse_mirrors_document (tp : t) fuel doc :
  (make distance polyline_encode fuel tp).1 = Ret doc →
  ∃ doc' ps,
    ((reverse;; make distance polyline_encode fuel) tp).1 = Ret doc'
    ∧ AddTripPattern.name doc' = AddTripPattern.name doc
    ∧ AddTripPattern.stops doc' = list.reverse (AddTripPattern.stops doc)
    ∧ Forall2 (λ tt tt',
         same_service tt tt'
         ∧ Timetable.hopTimes tt' = list.reverse (Timetable.hopTimes tt))
        (AddTripPattern.timetables doc) (AddTripPattern.timetables doc')
    ∧ AddTripPattern.geometry doc = polyline_encode ps
    ∧ AddTripPattern.geometry doc' = polyline_encode (list.reverse ps).
Proof.
  intros Hdoc.
  destruct (make distance polyline_encode fuel tp) as [r tp'] eqn:Hmake.
  simpl in Hdoc. subst r.
  apply make_inv_full in Hmake as (l & ps & Hl & Hps & ->).
  set (tp2 := set_reversed (negb (_reversed tp)) tp).
  assert (discretize distance fuel tp2 = (Ret (mirror l), tp2)) as Hl2.
  { by apply (discretize_mirror tp tp2) in Hl. }
  assert (newGeometry (mirror l) = (λ p, Some (p.2, p.1)) <$> list.reverse ps)
    as Hps2.
  { simpl. by rewrite Hps, fmap_reverse. }
  eexists _, ps.
  rewrite (bind_run reverse _ tp This tp2) by done.
  rewrite (make_run_full tp2 fuel _ _ Hl2 Hps2). simpl.
  repeat split.
  induction (_windows tp) as [|w ws IH]; simpl; constructor; [|done].
  split; [done|]. simpl. by rewrite fmap_reverse.
Qed.

(** X11: if [make] returns a document, then [make] after
    [addTimeWindow(w)] returns the same document with one more timetable
    at the end, that of [w]. *)
Theorem addTimeWindow_appends_timetable (tp : t) (w : TimeWindow.t) fuel doc :
  (make distance polyline_encode fuel tp).1 = Ret doc →
  ∃ doc' tt,
    ((addTimeWindow w;; make distance polyline_encode fuel) tp).1 = Ret doc'
    ∧ AddTripPattern.timetables doc' = AddTripPattern.timetables doc ++ [tt]
    ∧ Timetable.startTime tt = TimeWindow._start w
    ∧ Timetable.endTime tt = TimeWindow._end w
    ∧ Timetable.headwaySecs tt = TimeWindow._headway w
    ∧ AddTripPattern.name doc' = AddTripPattern.name doc
    ∧ AddTripPattern.stops doc' = AddTripPattern.stops doc
    ∧ AddTripPattern.geometry doc' = AddTripPattern.geometry doc.
Proof.
  intros Hdoc.
  destruct (make distance polyline_encode fuel tp) as [r tp'] eqn:Hmake.
  simpl in Hdoc. subst r.
  apply make_inv_full in Hmake as (l & ps & Hl & Hps & ->).
  set (tp2 := set_windows (_windows tp ++ [w]) tp).
  assert (discretize distance fuel tp2 = (Ret l, tp2)) as Hl2.
  { by apply (discretize_agree tp tp2) in Hl. }
  eexists _, (timetable_of l w).
  rewrite (bind_run (addTimeWindow w) _ tp This tp2) by done.
  rewrite (make_run_full tp2 fuel _ _ Hl2 Hps). simpl.
  repeat split. by rewrite fmap_app.
Qed.

End make_composes.

Lemma reverse_mirrors_document_witness :
  ∃ doc doc',
    (TripPattern.make taxicab_km encode_length 2 example_line).1 = Ret doc
    ∧ ((TripPattern.reverse;; TripPattern.make taxicab_km encode_length 2)
         example_line).1 = Ret doc'
    ∧ AddTripPattern.stops doc' = reverse (AddTripPattern.stops doc).
Proof.
  destruct (TripPattern.make taxicab_km encode_length 2 example_line).1
    as [doc| |] eqn:Hdoc; [|vm_compute in Hdoc; discriminate..].
  destruct (reverse_mirrors_document taxicab_km encode_length example_line 2 doc Hdoc)
    as (doc' & ps & Hdoc' & _ & Hstops & _).
  exists doc, doc'. exact (conj eq_refl (conj Hdoc' Hstops)).
Defined.

Lemma addTimeWindow_appends_timetable_witness :
  ∃ doc doc' tt,
    (TripPattern.make taxicab_km encode_length 2 example_line).1 = Ret doc
    ∧ ((TripPattern.addTimeWindow (TimeWindow.set_speed 30 TimeWindow.new);;
        TripPattern.make taxicab_km encode_length 2) example_line).1 = Ret doc'
    ∧ AddTripPattern.timetables doc' = AddTripPattern.timetables doc ++ [tt].
Proof.
  destruct (TripPattern.make taxicab_km encode_length 2 example_line).1
    as [doc| |] eqn:Hdoc; [|vm_compute in Hdoc; discriminate..].
  destruct (addTimeWindow_appends_timetable taxicab_km encode_length example_line
              (TimeWindow.set_speed 30 TimeWindow.new) 2 doc Hdoc)
    as (doc' & tt & Hdoc' & Htts & _).
  exists doc, doc', tt. exact (conj eq_refl (conj Hdoc' Htts)).
Defined.

(** ** Where the stops are *)

Section loop_rules.
Import TripPattern.
Variable distance : coord → coord → Q.
Variable polyline_encode : list coord → string.
Variables (this : t) (coords : list coord) (s : Q).
Hypothesis Hgeom : _geometry this = Some coords.
Hypothesis Hspacing : _spacing this = Some s.

(** The [while] loop keeps what its body keeps, and ends with
    [accumulator <= nextStop]. *)
Lemma insert_stops_rule (P : locals → Prop) i segLen x1 y1 x2 y2 :
  coords !! (i - 1) = Some (x1, y1) → coords !! i = Some (x2, y2) →
  (∀ l, (nextStop l < accumulator l)%Q → P l →
     P {| accumulator := accumulator l;
          nextStop := nextStop l + s / 1000;
          stopIndices := stopIndices l ++ [true];
          nStops := S (nStops l);
          hops := hops l ++ [Some s];
          newGeometry := newGeometry l ++
            [Some (x1 + (x2 - x1)
                        * ((segLen - (accumulator l - nextStop l)) / segLen),
                   y1 + (y2 - y1)
                        * ((segLen - (accumulator l - nextStop l)) / segLen))%Q]
       |}) →
  ∀ fuel l l' tp', insert_stops fuel i segLen l this = (Ret l', tp') → P l →
    P l' ∧ (accumulator l' <= nextStop l')%Q.
Proof.
  intros H1 H2 Hbody fuel.
  induction fuel as [|fuel IH]; intros l l' tp'; simpl;
    destruct (js_gt (accumulator l) (nextStop l)) eqn:Hgt; try done.
  - intros [= <- _] HP. split; [done|by apply js_gt_false].
  - rewrite (bind_run _ _ _ _ _ (point_run _ _ Hgeom _ _ H1)).
    rewrite (bind_run _ _ _ _ _ (point_run _ _ Hgeom _ _ H2)).
    rewrite (bind_run (gets _spacing) _ this _ this eq_refl).
    rewrite (bind_run _ _ _ _ _ (spacing_km_run _ _ Hspacing)).
    rewrite Hspacing. intros Hrun HP.
    apply (IH _ _ _ Hrun). apply Hbody; [by apply js_gt_true|done].
  - intros [= <- _] HP. split; [done|by apply js_gt_false].
Qed.

(** A segment is its [while] loop followed by the push of its end vertex. *)
Lemma segment_inv fuel i p1 p2 l l' tp' :
  coords !! (i - 1) = Some p1 → coords !! i = Some p2 →
  segment distance fuel i l this = (Ret l', tp') →
  ∃ l1,
    insert_stops fuel i (distance p1 p2)
      {| accumulator := accumulator l + distance p1 p2;
         nextStop := nextStop l; stopIndices := stopIndices l;
         nStops := nStops l; hops := hops l; newGeometry := newGeometry l |}
      this = (Ret l1, this)
    ∧ l' = {| accumulator := accumulator l1;
              nextStop := nextStop l1;
              stopIndices := stopIndices l1 ++ [bool_decide (i = length coords - 1)];
              nStops := nStops l1;
              hops := hops l1;
              newGeometry := newGeometry l1 ++ [Some p2] |}.
Proof.
  intros H1 H2. unfold segment.
  rewrite (bind_run _ _ _ _ _ (point_run _ _ Hgeom _ _ H1)).
  rewrite (bind_run _ _ _ _ _ (point_run _ _ Hgeom _ _ H2)).
  intros H.
  apply bind_inv_readonly in H as (l1 & Hl1 & H); [|apply readonly_insert_stops].
  rewrite (bind_run _ _ _ _ _ (coordinate_run _ _ Hgeom i)) in H.
  rewrite (bind_run _ _ _ _ _ (length_run _ _ Hgeom)) in H.
  exists l1. split; [done|]. rewrite H2 in H. by injection H as <- _.
Qed.

(** The [for] loop takes what holds before segment [a] to what holds
    before segment [a + k], if every segment in range takes a step. *)
Lemma segments_rule (P : nat → locals → Prop) fuel lo hi :
  (∀ j l l' tp', lo ≤ j < hi → P j l →
     segment distance fuel j l this = (Ret l', tp') → P (S j) l') →
  ∀ k a l l' tp', lo ≤ a → a + k ≤ hi →
    for_each (segment distance fuel) (seq a k) l this = (Ret l', tp') →
    P a l → P (a + k) l'.
Proof.
  intros Hstep k. induction k as [|k IH]; intros a l l' tp' Hlo Hhi; simpl.
  - intros [= <- _]. by rewrite Nat.add_0_r.
  - intros H HP.
    apply bind_inv_readonly in H as (l1 & Hl1 & H); [|apply readonly_segment].
    replace (a + S k) with (S a + k) by lia.
    apply (IH (S a) l1 l' tp'); [lia|lia|done|].
    apply (Hstep a l l1 this); [lia|done..].
Qed.

(** The run of [discretize] is the run of its [for] loop, followed by the
    push of the leftover hop and the reversal if asked for. *)
Lemma discretize_forward fuel l tp' :
  discretize distance fuel this = (Ret l, tp') →
  ∃ l0,
    for_each (segment distance fuel) (seq 1 (length coords - 1))
      {| accumulator := 0; nextStop := s / 1000; stopIndices := [true];
         nStops := 2; hops := []; newGeometry := [coords !! 0] |}
      this = (Ret l0, this)
    ∧ accumulator l = accumulator l0
    ∧ nextStop l = nextStop l0
    ∧ nStops l = nStops l0
    ∧ stopIndices l
      = (if _reversed this then list.reverse else id) (stopIndices l0)
    ∧ hops l
      = (if _reversed this then list.reverse else id)
          (hops l0 ++
             [Some ((accumulator l0 - (nextStop l0 - s / 1000)) * 1000)%Q])
    ∧ newGeometry l
      = (if _reversed this then list.reverse else id) (newGeometry l0).
Proof.
  unfold discretize.
  rewrite (bind_run _ _ _ _ _ (spacing_km_run _ _ Hspacing)).
  rewrite (bind_run _ _ _ _ _ (coordinate_run _ _ Hgeom 0)).
  rewrite (bind_run _ _ _ _ _ (length_run _ _ Hgeom)).
  intros H.
  apply bind_inv_readonly in H as (l0 & Hl0 & H);
    [|apply readonly_for_each; intros; apply readonly_segment].
  rewrite (bind_run _ _ _ _ _ (spacing_km_run _ _ Hspacing)) in H.
  rewrite (bind_run (gets _reversed) _ this _ this eq_refl) in H.
  exists l0. split; [done|].
  destruct (_reversed this); by injection H as <- _.
Qed.

End loop_rules.

Section stops_on_the_line.
Import TripPattern.
Variable distance : coord → coord → Q.
Variable polyline_encode : list coord → string.
Variables (this : t) (coords : list coord) (s : Q).
Hypothesis Hgeom : _geometry this = Some coords.
Hypothesis Hspacing : _spacing this = Some s.
Hypothesis Hpos : (0 < s)%Q.
Hypothesis Hlen : 2 ≤ length coords.

Lemma segment_walked fuel j l l' tp' :
  1 ≤ j < length coords → walked coords s j l →
  segment distance fuel j l this = (Ret l', tp') → walked coords s (S j) l'.
Proof.
  intros Hj (Hacc & Hsize & Hsum & Hline) Hrun.
  destruct (lookup_lt_is_Some_2 coords (j - 1)) as [[x1 y1] H1]; [lia|].
  destruct (lookup_lt_is_Some_2 coords j) as [[x2 y2] H2]; [lia|].
  assert (coords !! S (j - 1) = Some (x2, y2)) as H2'.
  { by replace (S (j - 1)) with j by lia. }
  assert (0 < s / 1000)%Q as Hstep by (apply Qlt_shift_div_l; lra).
  destruct (segment_inv distance this coords Hgeom fuel j _ _ l l' tp' H1 H2 Hrun)
    as (l1 & Hl1 & ->).
  set (d := distance (x1, y1) (x2, y2)) in *.
  apply (insert_stops_rule this coords s Hgeom Hspacing
           (λ l, (accumulator l - d <= nextStop l)%Q
                 ∧ length (stopIndices l) = j + length (hops l)
                 ∧ (hops_total (hops l) == (nextStop l - s / 1000) * 1000)%Q
                 ∧ Forall (λ c, ∃ p, c = Some p ∧ on_line coords p)
                     (newGeometry l))
           j d x1 y1 x2 y2 H1 H2) in Hl1
    as [(_ & Hsize1 & Hsum1 & Hline1) Hacc1].
  - repeat split; simpl.
    + done.
    + rewrite length_app. simpl. lia.
    + done.
    + apply Forall_app. split; [done|]. constructor; [|done].
      exists (x2, y2). split; [done|].
      exists (j - 1), (x1, y1), (x2, y2), 1%Q. simpl.
      repeat split; try done; lra.
  - clear Hl1. intros l0 Hgt (Hin & Hsize0 & Hsum0 & Hline0).
    repeat split; simpl.
    + lra.
    + rewrite !length_app. simpl. lia.
    + rewrite hops_total_snoc. simpl.
      assert (s == s / 1000 * 1000)%Q by (field; lra). lra.
    + apply Forall_app. split; [done|]. constructor; [|done].
      eexists. split; [done|].
      exists (j - 1), (x1, y1), (x2, y2),
        ((d - (accumulator l0 - nextStop l0)) / d)%Q. simpl.
      repeat split; try done.
      * apply Qle_shift_div_l; lra.
      * apply Qle_shift_div_r; lra.
  - repeat split; simpl; [lra|done..].
Qed.

Lemma segments_walked fuel l0 tp' :
  for_each (segment distance fuel) (seq 1 (length coords - 1))
    {| accumulator := 0; nextStop := s / 1000; stopIndices := [true];
       nStops := 2; hops := []; newGeometry := [coords !! 0] |}
    this = (Ret l0, tp') →
  walked coords s (length coords) l0.
Proof.
  intros Hrun.
  destruct (lookup_lt_is_Some_2 coords 0) as [c0 H0]; [lia|].
  destruct (lookup_lt_is_Some_2 coords 1) as [c1 H1]; [lia|].
  replace (length coords) with (1 + (length coords - 1)) at 1 by lia.
  apply (segments_rule distance this (walked coords s) fuel 1 (length coords))
    in Hrun; [done| |lia|lia|].
  - intros j l l' tp'' Hj Hw Hseg. by apply (segment_walked fuel j l l' tp'').
  - assert (0 < s / 1000)%Q as Hstep by (apply Qlt_shift_div_l; lra).
    repeat split; simpl.
    + lra.
    + unfold hops_total. simpl. lra.
    + constructor; [|done]. exists c0. split; [done|].
      exists 0, c0, c1, 0%Q. repeat split; try done; lra.
Qed.

(** What [make] returns, with the loop variables behind it. *)
Lemma make_forward fuel doc :
  (make distance polyline_encode fuel this).1 = Ret doc →
  ∃ l l0 ps,
    discretized distance this coords s l
    ∧ walked coords s (length coords) l0
    ∧ for_each (segment distance fuel) (seq 1 (length coords - 1))
        {| accumulator := 0; nextStop := s / 1000; stopIndices := [true];
           nStops := 2; hops := []; newGeometry := [coords !! 0] |}
        this = (Ret l0, this)
    ∧ stopIndices l
      = (if _reversed this then list.reverse else id) (stopIndices l0)
    ∧ hops l
      = (if _reversed this then list.reverse else id)
          (hops l0 ++
             [Some ((accumulator l0 - (nextStop l0 - s / 1000)) * 1000)%Q])
    ∧ newGeometry l
      = (if _reversed this then list.reverse else id) (newGeometry l0)
    ∧ newGeometry l = (λ p, Some (p.2, p.1)) <$> ps
    ∧ AddTripPattern.stops doc = stopIndices l
    ∧ AddTripPattern.timetables doc = timetable_of l <$> _windows this
    ∧ AddTripPattern.geometry doc = polyline_encode ps.
Proof.
  intros Hdoc.
  destruct (make distance polyline_encode fuel this) as [r tp'] eqn:Hmake.
  simpl in Hdoc. subst r.
  apply make_inv_full in Hmake as (l & ps & Hl & Hps & ->).
  pose proof (discretize_inv distance this coords s Hgeom Hspacing Hpos
                fuel l this Hlen Hl) as Hd.
  apply (discretize_forward distance this coords s Hgeom Hspacing) in Hl
    as (l0 & Hl0 & _ & _ & _ & Hstops & Hhops & Hgeo).
  exists l, l0, ps. split; [done|].
  split; [by apply (segments_walked fuel l0 this)|]. by repeat split.
Qed.

(** X12: the encoder is handed as many coordinates as [stops] has
    entries, and the entries of [stops] that are not stops are as many as the
    line has vertices between its first and its last. *)
Theorem make_geometry_vertices fuel doc :
  (make distance polyline_encode fuel this).1 = Ret doc →
  ∃ ps, AddTripPattern.geometry doc = polyline_encode ps
    ∧ length ps = length (AddTripPattern.stops doc)
    ∧ length (AddTripPattern.stops doc) + 2
      = length coords + count_true (AddTripPattern.stops doc).
Proof.
  intros Hdoc.
  destruct (make_forward fuel doc Hdoc)
    as (l & l0 & ps & Hd & (_ & Hsize & _) & _ & Hstops & Hhops & _ & Hps
        & -> & _ & ->).
  exists ps. split; [done|].
  destruct Hd as [_ _ Hcount _ _ _ _ Hlength].
  split.
  - by rewrite <- Hlength, Hps, length_fmap.
  - rewrite Hcount, Hhops, Hstops.
    destruct (_reversed this); simpl;
      rewrite ?length_reverse, length_app, Hsize; simpl; lia.
Qed.


End stops_on_the_line.

(** ** How far apart the stops are *)



Section stops_spaced.
Import TripPattern.
Variable distance : coord → coord → Q.
Variable polyline_encode : list coord → string.
Variables (this : t) (coords : list coord) (s : Q).
Hypothesis Hgeom : _geometry this = Some coords.
Hypothesis Hspacing : _spacing this = Some s.
Hypothesis Hpos : (0 < s)%Q.
Hypothesis Hlen : 2 ≤ length coords.
Hypothesis Hdist : ∀ a b, (0 <= distance a b)%Q.






End stops_spaced.


Lemma make_geometry_vertices_witness :
  ∃ doc ps,
    (TripPattern.make taxicab_km encode_length 2 example_line).1 = Ret doc
    ∧ AddTripPattern.geometry doc = encode_length ps
    ∧ length ps = length (AddTripPattern.stops doc)
    ∧ length (AddTripPattern.stops doc) + 2
      = 2 + count_true (AddTripPattern.stops doc).
Proof.
  assert (2 ≤ length [(0, 0); (0, 1 # 100)]%Q) as Hlen by (simpl; lia).
  destruct (TripPattern.make taxicab_km encode_length 2 example_line).1
    as [doc| |] eqn:Hdoc; [|vm_compute in Hdoc; discriminate..].
  destruct (make_geometry_vertices taxicab_km encode_length example_line _ 500%Q
              eq_refl eq_refl eq_refl Hlen 2 doc Hdoc) as (ps & H).
  exists doc, ps. exact (conj eq_refl H).
Defined.




(** ** The arrays that a [RemoveTrip] document shares with its builder *)

Section shared_arrays.
Import Shared SharedRemoveTrip.

Lemma call_step (w : world t) (c : filter_call) :
  well_formed w →
  ∃ w', call c w = (Ret This, w')
    ∧ well_formed w'
    ∧ keeps_arrays w w'
    ∧ contents w' = (RemoveTrip_call c (contents w)).2.
Proof.
  intros (Hro & Htr & Hty & Hne).
  rewrite RemoveTrip_call_run.
  destruct w as [ss ns [ag ro tr ty]]. simpl in *.
  destruct c as [x|x|x]; simpl.
  - (* addRoute *)
    unfold addRoute.
    rewrite (bind_run (gets _) _ _ _ _ eq_refl). simpl.
    destruct ro as [a|].
    + destruct (Hro a eq_refl) as [xs Hxs].
      eexists. split.
      { unfold push_string, mbind, M_bind. simpl. rewrite Hxs. reflexivity. }
      assert (a < length ss) as Ha by (by eapply lookup_lt_Some).
      split; [|split].
      * repeat split; simpl.
        -- intros ? [= <-]. rewrite list_lookup_insert_eq by done. by eexists.
        -- intros b ->. destruct (Htr b eq_refl) as [ys Hys].
           rewrite list_lookup_insert_ne by (by apply Hne). by eexists.
        -- done.
        -- done.
      * by repeat split.
      * unfold contents. simpl. rewrite Hxs. simpl.
        rewrite list_lookup_insert_eq by done.
        unfold RemoveTrip.set_routeId. simpl. f_equal.
        destruct tr as [b|]; [|done]. simpl.
        by rewrite list_lookup_insert_ne by (by apply Hne).
    + eexists. split; [reflexivity|].
      split; [|split].
      * repeat split; simpl.
        -- intros ? [= <-]. rewrite lookup_app_r, Nat.sub_diag by done. by eexists.
        -- intros b ->. destruct (Htr b eq_refl) as [ys Hys].
           rewrite lookup_app_l by (by eapply lookup_lt_Some). by eexists.
        -- done.
        -- intros ? b [= <-] ->. destruct (Htr b eq_refl) as [ys Hys].
           apply lookup_lt_Some in Hys. lia.
      * by repeat split.
      * unfold contents. simpl.
        rewrite lookup_app_r, Nat.sub_diag by done.
        unfold RemoveTrip.set_routeId. simpl. f_equal.
        destruct tr as [b|]; [|done]. simpl.
        destruct (Htr b eq_refl) as [ys Hys].
        by rewrite lookup_app_l by (by eapply lookup_lt_Some).
  - (* addTrip *)
    unfold addTrip.
    rewrite (bind_run (gets _) _ _ _ _ eq_refl). simpl.
    destruct tr as [b|].
    + destruct (Htr b eq_refl) as [ys Hys].
      eexists. split.
      { unfold push_string, mbind, M_bind. simpl. rewrite Hys. reflexivity. }
      assert (b < length ss) as Hb by (by eapply lookup_lt_Some).
      split; [|split].
      * repeat split; simpl.
        -- intros a ->. destruct (Hro a eq_refl) as [xs Hxs].
           rewrite list_lookup_insert_ne by (by apply not_eq_sym, Hne). by eexists.
        -- intros ? [= <-]. rewrite list_lookup_insert_eq by done. by eexists.
        -- done.
        -- done.
      * by repeat split.
      * unfold contents. simpl. rewrite Hys. simpl.
        rewrite list_lookup_insert_eq by done.
        unfold RemoveTrip.set_tripId. simpl. f_equal.
        destruct ro as [a|]; [|done]. simpl.
        by rewrite list_lookup_insert_ne by (by apply not_eq_sym, Hne).
    + eexists. split; [reflexivity|].
      split; [|split].
      * repeat split; simpl.
        -- intros a ->. destruct (Hro a eq_refl) as [xs Hxs].
           rewrite lookup_app_l by (by eapply lookup_lt_Some). by eexists.
        -- intros ? [= <-]. rewrite lookup_app_r, Nat.sub_diag by done. by eexists.
        -- done.
        -- intros a ? -> [= <-]. destruct (Hro a eq_refl) as [xs Hxs].
           apply lookup_lt_Some in Hxs. lia.
      * by repeat split.
      * unfold contents. simpl.
        rewrite lookup_app_r, Nat.sub_diag by done.
        unfold RemoveTrip.set_tripId. simpl. f_equal.
        destruct ro as [a|]; [|done]. simpl.
        destruct (Hro a eq_refl) as [xs Hxs].
        by rewrite lookup_app_l by (by eapply lookup_lt_Some).
  - (* addType *)
    unfold addType.
    rewrite (bind_run (gets _) _ _ _ _ eq_refl). simpl.
    destruct ty as [a|].
    + destruct (Hty a eq_refl) as [xs Hxs].
      eexists. split.
      { unfold push_number, mbind, M_bind. simpl. rewrite Hxs. reflexivity. }
      assert (a < length ns) as Ha by (by eapply lookup_lt_Some).
      split; [|split].
      * repeat split; simpl; try done.
        intros ? [= <-]. rewrite list_lookup_insert_eq by done. by eexists.
      * by repeat split.
      * unfold contents. simpl. rewrite Hxs. simpl.
        by rewrite list_lookup_insert_eq by done.
    + eexists. split; [reflexivity|].
      split; [|split].
      * repeat split; simpl; try done.
        intros ? [= <-]. rewrite lookup_app_r, Nat.sub_diag by done. by eexists.
      * by repeat split.
      * unfold contents. simpl.
        by rewrite lookup_app_r, Nat.sub_diag by done.
Qed.

Lemma keeps_arrays_trans (w1 w2 w3 : world t) :
  keeps_arrays w1 w2 → keeps_arrays w2 w3 → keeps_arrays w1 w3.
Proof.
  intros (Hro & Htr & Hty & Hag) (Hro' & Htr' & Hty' & Hag').
  repeat split; [intros a Ha..|congruence]; auto.
Qed.

Lemma calls_step (w : world t) (calls : list filter_call) :
  well_formed w →
  ∃ res w', mapM call calls w = (Ret res, w')
    ∧ well_formed w'
    ∧ keeps_arrays w w'
    ∧ contents w' = (mapM RemoveTrip_call calls (contents w)).2.
Proof.
  revert w. induction calls as [|c calls IH]; intros w Hw.
  - by exists [], w.
  - destruct (call_step w c Hw) as (w1 & Hc & Hw1 & Hk1 & Hc1).
    destruct (IH w1 Hw1) as (res & w' & Hrun & Hw' & Hk' & Hc').
    exists (This :: res), w'. split; [|split; [|split]].
    + simpl. by rewrite (bind_run _ _ _ _ _ Hc), (bind_run _ _ _ _ _ Hrun).
    + done.
    + by eapply keeps_arrays_trans.
    + rewrite Hc', Hc1.
      assert (RemoveTrip_call c (contents w)
              = (Ret This, (RemoveTrip_call c (contents w)).2)) as Hcall.
      { by rewrite RemoveTrip_call_run. }
      destruct (RemoveTrip_calls_state
                  (RemoveTrip_call c (contents w)).2 calls) as [res' Hres'].
      by rewrite (mapM_cons_run _ _ _ _ _ _ _ _ Hcall Hres'), Hres'.
Qed.

(** X16: a [RemoveTrip] builder and its store stay in step with the
    builder that holds its lists by value: after any sequence of [add]
    calls from a well-formed world (a new builder is one), the world is
    well-formed, the arrays of the builder read from the store are the lists
    of the by-value builder after the same calls, and the document that
    [make] returns, read at once, is the by-value document. *)
Theorem shared_RemoveTrip_refines (w : world t) (calls : list filter_call) :
  (∀ ss ns, well_formed (mkWorld ss ns new))
  ∧ (well_formed w →
     ∃ res w' d,
       mapM call calls w = (Ret res, w')
       ∧ well_formed w'
       ∧ contents w' = (mapM RemoveTrip_call calls (contents w)).2
       ∧ make w' = (Ret d, w')
       ∧ (RemoveTrip.make (contents w')).1 = Ret (read w' d)).
Proof.
  split; [by repeat split|].
  intros Hw. destruct (calls_step w calls Hw) as (res & w' & Hrun & Hw' & _ & Hc).
  by eexists res, w', _.
Qed.

(** X17: a document is not a copy.  Read after further [add] calls, a
    document made earlier shows, for each filter that was a list when it was
    made, the values added since; a filter that was [null] when it was made
    stays [null] in it, whatever has been added since. *)
Theorem shared_document_sees_later_adds
    (w : world t) (d : document) (calls : list filter_call) :
  well_formed w → (make w).1 = Ret d →
  ∃ res w',
    mapM call calls w = (Ret res, w')
    ∧ RemoveTripDocument.agencyId (read w' d) = _agencyId (this w)
    ∧ RemoveTripDocument.routeId (read w' d)
      = (λ xs, xs ++ routes_of calls) <$> RemoveTrip._routeId (contents w)
    ∧ RemoveTripDocument.tripId (read w' d)
      = (λ xs, xs ++ trips_of calls) <$> RemoveTrip._tripId (contents w)
    ∧ RemoveTripDocument.routeType (read w' d)
      = (λ xs, xs ++ types_of calls) <$> RemoveTrip._routeType (contents w).
Proof.
  intros Hw [= <-].
  destruct (calls_step w calls Hw)
    as (res & w' & Hrun & Hw' & (Hro & Htr & Hty & _) & Hc).
  exists res, w'. split; [done|]. split; [done|].
  destruct (RemoveTrip_calls_state (contents w) calls) as [res' Hres'].
  rewrite Hres' in Hc. simpl in Hc.
  assert (∀ {A} (old : option (list A)) added,
            old ≠ None → extended old added = (λ xs, xs ++ added) <$> old)
    as Hext.
  { intros A [xs|] [|x added] Hold; simpl; try done. by rewrite app_nil_r. }
  destruct Hw as (Vro & Vtr & Vty & _).
  assert (RemoveTrip._routeId (contents w')
          = extended (RemoveTrip._routeId (contents w)) (routes_of calls))
    as Hroutes by (by rewrite Hc).
  assert (RemoveTrip._tripId (contents w')
          = extended (RemoveTrip._tripId (contents w)) (trips_of calls))
    as Htrips by (by rewrite Hc).
  assert (RemoveTrip._routeType (contents w')
          = extended (RemoveTrip._routeType (contents w)) (types_of calls))
    as Htypes by (by rewrite Hc).
  clear Hc. cbn [contents RemoveTrip._routeId RemoveTrip._tripId
                 RemoveTrip._routeType] in *.
  cbn [read make gets fst routeId tripId routeType
       RemoveTripDocument.routeId RemoveTripDocument.tripId
       RemoveTripDocument.routeType].
  split; [|split].
  - destruct (_routeId (this w)) as [a|] eqn:Ha; [|done].
    rewrite (Hro a eq_refl) in Hroutes. cbn [mbind option_bind] in *.
    rewrite Hroutes. apply Hext. by destruct (Vro a eq_refl) as [xs ->].
  - destruct (_tripId (this w)) as [a|] eqn:Ha; [|done].
    rewrite (Htr a eq_refl) in Htrips. cbn [mbind option_bind] in *.
    rewrite Htrips. apply Hext. by destruct (Vtr a eq_refl) as [xs ->].
  - destruct (_routeType (this w)) as [a|] eqn:Ha; [|done].
    rewrite (Hty a eq_refl) in Htypes. cbn [mbind option_bind] in *.
    rewrite Htypes. apply Hext. by destruct (Vty a eq_refl) as [xs ->].
Qed.

End shared_arrays.
Lemma shared_RemoveTrip_refines_witness :
  ∃ res w' d,
    mapM SharedRemoveTrip.call [AddRoute "10"; AddTrip "t1"; AddRoute "11"]
      fresh_world = (Ret res, w')
    ∧ SharedRemoveTrip.make w' = (Ret d, w')
    ∧ (RemoveTrip.make (SharedRemoveTrip.contents w')).1
      = Ret (SharedRemoveTrip.read w' d).
Proof.
  destruct (shared_RemoveTrip_refines fresh_world
              [AddRoute "10"; AddTrip "t1"; AddRoute "11"]) as [Hnew Hrun].
  destruct (Hrun (Hnew [] [])) as (res & w' & d & H1 & _ & _ & H2 & H3).
  exists res, w', d. exact (conj H1 (conj H2 H3)).
Defined.

Lemma one_route_world_well_formed : SharedRemoveTrip.well_formed one_route_world.
Proof.
  repeat split; try done. intros a [= <-]. by eexists.
Qed.

Lemma shared_document_sees_later_adds_witness :
  ∃ d res w',
    (SharedRemoveTrip.make one_route_world).1 = Ret d
    ∧ mapM SharedRemoveTrip.call [AddRoute "11"; AddTrip "t1"] one_route_world
      = (Ret res, w')
    ∧ RemoveTripDocument.routeId (SharedRemoveTrip.read one_route_world d)
      = Some ["10"%string]
    ∧ RemoveTripDocument.routeId (SharedRemoveTrip.read w' d)
      = Some ["10"; "11"]%string
    ∧ RemoveTripDocument.tripId (SharedRemoveTrip.read w' d) = None.
Proof.
  eexists.
  destruct (shared_document_sees_later_adds one_route_world _
              [AddRoute "11"; AddTrip "t1"] one_route_world_well_formed eq_refl)
    as (res & w' & Hrun & _ & Hroutes & Htrips & _).
  exists res, w'.
  exact (conj eq_refl (conj Hrun (conj eq_refl (conj Hroutes Htrips)))).
Defined.
